(** * Extent placement of crimson/seastore: record builder, segmented
      allocator and placement manager

    A shallow embedding of [crimson/os/seastore/extent_placement_manager.h]:
    [ool_record_t], [SegmentedAllocator] (with its [Writer]) and
    [ExtentPlacementManager], with the properties of the design document
    stated and proved about the embedded code. *)

From Stdlib Require Import ZArith NArith List Lia Bool Permutation Sorted.
Import ListNotations.
Local Open Scope Z_scope.

(** ** Integer types of seastore

    [segment_off_t] is a signed 32-bit offset ([MAX_SEG_OFF] is its largest
    value), [size_t] is unsigned 64-bit.  Values are kept in [Z]; a
    conversion to the type is the reduction written out below. *)

Definition MAX_SEG_OFF : Z := 2147483647.

Definition to_segment_off (z : Z) : Z := (z + 2 ^ 31) mod 2 ^ 32 - 2 ^ 31.

Definition to_size_t (z : Z) : Z := z mod 2 ^ 64.

Definition segment_id_t := N.
Definition segment_nonce_t := N.
Definition laddr_t := N.
Definition extent_types_t := N.

(** [device_type_t]: the device families. *)
Inductive device_type_t := NONE | SEGMENTED | RANDOM_BLOCK | PMEM.

(** [ool_placement_hint_t]: an enumeration the code never inspects; a hint is
    the number of its enumerator, [HINT_NONE] the default one. *)
Definition ool_placement_hint_t := N.
Definition HINT_NONE : ool_placement_hint_t := 0%N.

Record paddr_t := mk_paddr { segment : segment_id_t; offset : Z }.

(** A [bufferptr] is a view of a raw buffer; [length()] is all the code
    reads of it. *)
Record bufferptr := mk_bufferptr { bp_raw : N; bp_length : N }.

Definition bufferlist := list bufferptr.

Definition bl_length (bl : bufferlist) : Z :=
  fold_right (fun p acc => Z.of_N (bp_length p) + acc) 0 bl.

(** The attributes of a logical cached extent the placement layer reads or
    writes. *)
Record LogicalCachedExtent := mk_extent {
  ext_type : extent_types_t;
  ext_laddr : laddr_t;
  ext_paddr : paddr_t;
  ext_bptr : bufferptr;
  ext_valid : bool;
  backend_type : device_type_t;
  hint : ool_placement_hint_t
}.

(** A [LogicalCachedExtentRef] is a counted pointer; the extents live in a
    store indexed by it. *)
Definition LogicalCachedExtentRef := nat.
Definition extent_store := LogicalCachedExtentRef -> LogicalCachedExtent.

(** ** The record builder, [ool_record_t] *)

Record extent_t := mk_extent_t {
  et_type : extent_types_t;
  et_addr : laddr_t;
  et_bl : bufferlist
}.

Definition delta_info_t := N.

Record record_t := mk_record {
  rec_extents : list extent_t;
  rec_deltas : list delta_info_t
}.

Record record_size_t := mk_record_size { mdlength : Z; dlength : Z }.

(** Modelled from the spec: [p2roundup] is the rounding macro of
    [include/intarith.h]; it rounds its first argument up to the next
    multiple of the block size. *)
Definition p2roundup (x align : Z) : Z := (x + align - 1) / align * align.

Module ool_record.

Record OolExtent := mk_ool_extent {
  ool_offset : option paddr_t;
  lextent : LogicalCachedExtentRef
}.

Definition set_ool_paddr (e : OolExtent) (addr : paddr_t) : OolExtent :=
  {| ool_offset := Some addr; lextent := lextent e |}.

Definition get_ool_paddr (e : OolExtent) : option paddr_t := ool_offset e.

Definition get_lextent (e : OolExtent) : LogicalCachedExtentRef := lextent e.

Record ool_record_t := mk_ool_record {
  extents : list OolExtent;
  record : record_t;
  block_size : N;
  extent_buf_len : Z;
  base : Z
}.

Section Builder.

(** The extents the builder borrows; their buffers do not change while a
    record is being built. *)
Variable store : extent_store.

(** [ceph::encoded_sizeof_bounded<extent_info_t>()]. *)
Variable extent_info_size : N.

(** The encoded size of the record header and its checksum. *)
Variable fixed_header_overhead : N.

(** [encode_record] of the journal code serializes a record; what it leaves
    in the record it was handed by [std::move] is [moved_from]. *)
Variable encode_record :
  record_size_t -> record_t -> N -> Z -> segment_nonce_t -> bufferlist.
Variable moved_from : record_t -> record_t.

Definition get_bptr (e : OolExtent) : bufferptr := ext_bptr (store (lextent e)).

(** Modelled from the spec: [get_encoded_record_raw_mdlength] of
    seastore_types is not in this header; the header length before rounding
    is per-extent-descriptor-size times extent count plus the fixed header
    overhead. *)
Definition get_encoded_record_raw_mdlength (r : record_t) (bs : N) : Z :=
  Z.of_N fixed_header_overhead
  + Z.of_nat (length (rec_extents r)) * Z.of_N extent_info_size.

(** Modelled from the spec: the free function [get_encoded_record_length] of
    seastore_types is not in this header; the encoded length is the metadata
    header length rounded up to the device block size, plus the payload
    length. *)
Definition get_encoded_record_length_of (r : record_t) (bs : N) : record_size_t :=
  {| mdlength := p2roundup (get_encoded_record_raw_mdlength r bs) (Z.of_N bs);
     dlength := fold_right (fun e acc => bl_length (et_bl e) + acc) 0
                           (rec_extents r) |}.

Definition ool_record_new (bs : N) : ool_record_t :=
  {| extents := []; record := mk_record [] []; block_size := bs;
     extent_buf_len := 0; base := MAX_SEG_OFF |}.

Definition get_encoded_record_length (st : ool_record_t) : record_size_t :=
  get_encoded_record_length_of (record st) (block_size st).

(** The method is not [const]; it returns the state it was called on. *)
Definition get_wouldbe_encoded_record_length
    (st : ool_record_t) (extent : LogicalCachedExtentRef)
  : Z * ool_record_t :=
  let raw_mdlength := get_encoded_record_raw_mdlength (record st) (block_size st) in
  let wouldbe_mdlength :=
    to_size_t (p2roundup (to_size_t (raw_mdlength + Z.of_N extent_info_size))
                         (Z.of_N (block_size st))) in
  (to_size_t (wouldbe_mdlength + extent_buf_len st
              + Z.of_N (bp_length (ext_bptr (store extent)))),
   st).

(** The loop of [encode]: each extent gets the running offset, which then
    advances by the extent's payload length. *)
Fixpoint assign_ool_paddrs (seg : segment_id_t) (extent_offset : Z)
    (es : list OolExtent) : list OolExtent * Z :=
  match es with
  | [] => ([], extent_offset)
  | e :: tl =>
      let e' := set_ool_paddr e (mk_paddr seg extent_offset) in
      let next := to_segment_off (extent_offset + Z.of_N (bp_length (get_bptr e))) in
      let (tl', fin) := assign_ool_paddrs seg next tl in
      (e' :: tl', fin)
  end.

(** [encode]: [None] is a failed assertion. *)
Definition encode (st : ool_record_t) (seg : segment_id_t) (nonce : segment_nonce_t)
  : option (bufferlist * ool_record_t) :=
  if negb (length (extents st) =? length (rec_extents (record st)))%nat then None
  else
    let rsize := get_encoded_record_length st in
    let extent_offset := to_segment_off (base st + mdlength rsize) in
    let (es', fin) := assign_ool_paddrs seg extent_offset (extents st) in
    if negb (fin =? to_segment_off (base st + mdlength rsize + dlength rsize)) then None
    else
      Some (encode_record rsize (record st) (block_size st) (base st) nonce,
            {| extents := es'; record := moved_from (record st);
               block_size := block_size st;
               extent_buf_len := extent_buf_len st; base := base st |}).

Definition add_extent (st : ool_record_t) (extent : LogicalCachedExtentRef)
  : ool_record_t :=
  let x := store extent in
  {| extents := extents st ++ [mk_ool_extent None extent];
     record := {| rec_extents :=
                    rec_extents (record st)
                    ++ [mk_extent_t (ext_type x) (ext_laddr x) [ext_bptr x]];
                  rec_deltas := rec_deltas (record st) |};
     block_size := block_size st;
     extent_buf_len :=
       to_segment_off (extent_buf_len st + Z.of_N (bp_length (ext_bptr x)));
     base := base st |}.

Definition get_extents (st : ool_record_t) : list OolExtent := extents st.

Definition set_base (st : ool_record_t) (b : Z) : ool_record_t :=
  {| extents := extents st; record := record st; block_size := block_size st;
     extent_buf_len := extent_buf_len st; base := b |}.

Definition get_base (st : ool_record_t) : Z := base st.

(** [clear]: [None] is the failed assertion on pending deltas. *)
Definition clear (st : ool_record_t) : option ool_record_t :=
  match rec_deltas (record st) with
  | [] => Some {| extents := [];
                  record := {| rec_extents := []; rec_deltas := [] |};
                  block_size := block_size st;
                  extent_buf_len := 0; base := MAX_SEG_OFF |}
  | _ :: _ => None
  end.

Definition get_num_extents (st : ool_record_t) : Z :=
  Z.of_nat (length (extents st)).

(** Payload bytes of the tracked extents, and of those before position [i]. *)
Definition payload_length (es : list OolExtent) : Z :=
  fold_right (fun e acc => Z.of_N (bp_length (get_bptr e)) + acc) 0 es.

Definition payload_before (i : nat) (es : list OolExtent) : Z :=
  payload_length (firstn i es).

(** Payload bytes of a list of extents. *)
Definition payload_of (es : list LogicalCachedExtentRef) : Z :=
  fold_right (fun e acc => Z.of_N (bp_length (ext_bptr (store e))) + acc) 0 es.

Definition descriptor_of (e : OolExtent) : extent_t :=
  let x := store (lextent e) in
  mk_extent_t (ext_type x) (ext_laddr x) [ext_bptr x].

(** The class invariant: one descriptor per tracked extent, in the same
    order, and the running payload total is the [segment_off_t] it was
    accumulated in. *)
Definition consistent (st : ool_record_t) : Prop :=
  rec_extents (record st) = map descriptor_of (extents st)
  /\ extent_buf_len st = to_segment_off (payload_length (extents st)).

(** The states a builder goes through between two calls of [encode]. *)
Inductive built : ool_record_t -> Prop :=
| built_new bs : built (ool_record_new bs)
| built_add_extent st e : built st -> built (add_extent st e)
| built_set_base st b : built st -> built (set_base st b)
| built_clear st st' : clear st = Some st' -> built st'.

(** A batch: the extents [es] added to a new builder in this order, and the
    base offset set to [b]. *)
Definition batch (bs : N) (es : list LogicalCachedExtentRef) (b : Z) : ool_record_t :=
  set_base (fold_left add_extent es (ool_record_new bs)) b.

(** The encoded length of the batch: header plus payload. *)
Definition encoded_length (st : ool_record_t) : Z :=
  mdlength (get_encoded_record_length st) + dlength (get_encoded_record_length st).

End Builder.
End ool_record.

(** ** Futures as outcomes

    The code runs on one reactor thread; an errorated future is modelled by
    the outcome it resolves to, and a continuation chained with [then],
    [safe_then] or [si_then] runs only after a successful one. *)

Inductive ct_error := input_output_error | invarg | ebadf | enospc.

(** [Ok]: the future resolved; [Err]: it failed with an error of its
    errorator; [Aborted]: an assertion failed or the behaviour is
    undefined. *)
Inductive outcome (A : Type) : Type :=
| Ok (a : A)
| Err (e : ct_error)
| Aborted.

Arguments Ok {A} a.
Arguments Err {A} e.
Arguments Aborted {A}.

Definition is_ok {A} (r : outcome A) : bool :=
  match r with Ok _ => true | _ => false end.

(** A computation on a state [S]: what was done before a failure stays
    done. *)
Definition M (S A : Type) : Type := S -> outcome A * S.

Definition ret {S A} (a : A) : M S A := fun s => (Ok a, s).

Definition bind {S A B} (c : M S A) (k : A -> M S B) : M S B :=
  fun s =>
    match c s with
    | (Ok a, s') => k a s'
    | (Err e, s') => (Err e, s')
    | (Aborted, s') => (Aborted, s')
    end.

Definition fail_assert {S A} : M S A := fun s => (Aborted, s).

Declare Scope fut_scope.
Delimit Scope fut_scope with fut.
Notation "x <- c ;; k" := (bind c (fun x => k))
  (at level 61, c at next level, right associativity) : fut_scope.
Notation "c ;;; k" := (bind c (fun _ => k))
  (at level 61, right associativity) : fut_scope.

(** [crimson::do_for_each] and [trans_intr::do_for_each]: the elements are
    visited in order, the future of one element is awaited before the next
    element is visited, and the first failure ends the loop. *)
Fixpoint do_for_each {S A} (l : list A) (f : A -> M S unit) : M S unit :=
  match l with
  | [] => ret tt
  | x :: tl => bind (f x) (fun _ => do_for_each tl f)
  end.

(** [do_for_each] over a container whose elements the action changes in
    place. *)
Fixpoint do_for_each_mut {A} (f : A -> outcome unit * A) (l : list A)
  : outcome unit * list A :=
  match l with
  | [] => (Ok tt, [])
  | x :: tl =>
      match f x with
      | (Ok _, x') => let (r, tl') := do_for_each_mut f tl in (r, x' :: tl')
      | (Err e, x') => (Err e, x' :: tl)
      | (Aborted, x') => (Aborted, x' :: tl)
      end
  end.

(** [std::map<K*, std::list<V>>] with pointer keys: iteration is in
    ascending key order; [m[k].emplace_back(v)]. *)
Fixpoint map_emplace_back {V} (k : N) (v : V) (m : list (N * list V))
  : list (N * list V) :=
  match m with
  | [] => [(k, [v])]
  | (k', vs) :: tl =>
      if (k =? k')%N then (k', vs ++ [v]) :: tl
      else if (k <? k')%N then (k, [v]) :: (k', vs) :: tl
      else (k', vs) :: map_emplace_back k v tl
  end.

Definition map_values {V} (m : list (N * list V)) : list V :=
  concat (map snd m).

(** ** Segments, the gate and the segment writer *)

(** A segment is open (accepting appends) or closed. *)
Record Segment := mk_segment { seg_id : segment_id_t; seg_open : bool }.

Record open_segment_wrapper_t := mk_wrapper {
  wr_segment : Segment;
  inflight_writes : nat;
  outdated : bool
}.

(** [seastar::gate]: the number of holders inside, and whether [close] was
    called. *)
Record gate := mk_gate { g_count : nat; g_stopped : bool }.

(** [seastar::gate::close()] asserts that the gate was not closed before
    ("cannot be called more than once"); its future resolves when the last
    holder has left. *)
Definition gate_close (g : gate) : outcome unit * gate :=
  if g_stopped g then (Aborted, g)
  else (Ok tt, {| g_count := 0; g_stopped := true |}).

Module SegmentedAllocator.

(** The state of a [Writer]; [current_segment] shares its wrapper with the
    entry of [open_segments] at that position. *)
Record Writer := mk_writer {
  current_segment : option nat;
  open_segments : list open_segment_wrapper_t;
  allocated_to : Z;
  writer_guard : gate;
  rolling_segment : bool
}.

Record t := mk_allocator { writers : list Writer }.

Section Stop.

(** The device's answer to closing a segment. *)
Variable close_error : segment_id_t -> option ct_error.

(** Modelled from the spec: [Segment::close] belongs to the segment
    manager; a segment is open or closed, and a close that the device
    accepts leaves it closed. *)
Definition Segment_close (s : Segment) : outcome unit * Segment :=
  match close_error (seg_id s) with
  | Some e => (Err e, s)
  | None => (Ok tt, {| seg_id := seg_id s; seg_open := false |})
  end.

Definition close_wrapper (w : open_segment_wrapper_t)
  : outcome unit * open_segment_wrapper_t :=
  let (r, s') := Segment_close (wr_segment w) in
  (r, {| wr_segment := s'; inflight_writes := inflight_writes w;
         outdated := outdated w |}).

(** [Writer::stop]. *)
Definition Writer_stop (w : Writer) : outcome unit * Writer :=
  match gate_close (writer_guard w) with
  | (Ok _, g') =>
      let (r, segs') := do_for_each_mut close_wrapper (open_segments w) in
      (r, {| current_segment := current_segment w; open_segments := segs';
             allocated_to := allocated_to w; writer_guard := g';
             rolling_segment := rolling_segment w |})
  | (Err e, g') =>
      (Err e, {| current_segment := current_segment w;
                 open_segments := open_segments w;
                 allocated_to := allocated_to w; writer_guard := g';
                 rolling_segment := rolling_segment w |})
  | (Aborted, g') =>
      (Aborted, {| current_segment := current_segment w;
                 open_segments := open_segments w;
                 allocated_to := allocated_to w; writer_guard := g';
                 rolling_segment := rolling_segment w |})
  end.

(** [SegmentedAllocator::stop]. *)
Definition stop (a : t) : outcome unit * t :=
  let (r, ws') := do_for_each_mut Writer_stop (writers a) in
  (r, {| writers := ws' |}).

Definition all_closed (w : Writer) : Prop :=
  Forall (fun h => seg_open (wr_segment h) = false) (open_segments w).

(** The device accepts the close of the handle's segment. *)
Definition accepted (h : open_segment_wrapper_t) : Prop :=
  close_error (seg_id (wr_segment h)) = None.

End Stop.
End SegmentedAllocator.

(** ** The world the allocator and the placement manager run in *)

(** Modelled from the spec: the transaction is a collaborator; the placement
    layer uses its delayed-allocation list, its counter of invalidated
    delayed extents and the record of the extents that became inline. *)
Record Transaction := mk_transaction {
  delayed_alloc_list : list LogicalCachedExtentRef;
  num_delayed_invalid_extents : N;
  inline_block_list : list LogicalCachedExtentRef
}.

(** An [ExtentAllocatorRef] owns an allocator; [get()] is its address. *)
Definition ExtentAllocatorRef := N.

(** What is observed of a run: the calls made to the collaborators, each
    with its arguments, in the order they were issued; a call to an
    allocator or a writer is observed when it starts and when its future
    resolves. *)
Inductive event :=
| EvCacheAllocByType (ty : extent_types_t) (len : Z) (delayed : bool)
| EvCacheAlloc (ty : extent_types_t) (len : Z) (delayed : bool)
| EvMarkInline (e : LogicalCachedExtentRef) (before after : paddr_t)
| EvAllocStart (a : ExtentAllocatorRef) (es : list LogicalCachedExtentRef)
| EvAllocDone (a : ExtentAllocatorRef) (r : outcome unit)
| EvWriteStart (w : N) (es : list LogicalCachedExtentRef)
| EvWriteDone (w : N) (r : outcome unit)
| EvUpdateMapping (l : laddr_t) (old new : paddr_t) (r : outcome unit).

(** The calls observed of a [do_for_each] over the groups of an allocation
    map, with the outcome of the loop: group after group in key order, the
    call for a group started once the call for the group before it has
    resolved successfully, and nothing after a call that failed. *)
Inductive sequential_run
    (start : N -> list LogicalCachedExtentRef -> event)
    (done : N -> outcome unit -> event)
  : list (N * list LogicalCachedExtentRef) -> list event -> outcome unit -> Prop :=
| seq_end : sequential_run start done [] [] (Ok tt)
| seq_next k es tl tr r :
    sequential_run start done tl tr r ->
    sequential_run start done ((k, es) :: tl)
                   (start k es :: done k (Ok tt) :: tr) r
| seq_stop k es tl r :
    is_ok r = false ->
    sequential_run start done ((k, es) :: tl) [start k es; done k r] r.

(** The calls of [update_mapping] observed of the pass over the inline
    pairs, the extents read in the store [st]. *)
Inductive inline_run (st : extent_store)
  : list (paddr_t * LogicalCachedExtentRef) -> list event -> outcome unit -> Prop :=
| inl_end : inline_run st [] [] (Ok tt)
| inl_next old e tl tr r :
    inline_run st tl tr r ->
    inline_run st ((old, e) :: tl)
               (EvUpdateMapping (ext_laddr (st e)) old (ext_paddr (st e)) (Ok tt)
                  :: tr) r
| inl_stop old e tl r :
    is_ok r = false ->
    inline_run st ((old, e) :: tl)
               [EvUpdateMapping (ext_laddr (st e)) old (ext_paddr (st e)) r] r.

Definition is_start (ev : event) : bool :=
  match ev with EvAllocStart _ _ | EvWriteStart _ _ => true | _ => false end.

Definition is_done (ev : event) : bool :=
  match ev with EvAllocDone _ _ | EvWriteDone _ _ => true | _ => false end.

Definition is_update (ev : event) : bool :=
  match ev with EvUpdateMapping _ _ _ _ => true | _ => false end.

Definition is_mark (ev : event) : bool :=
  match ev with EvMarkInline _ _ _ => true | _ => false end.

(** A call that was observed to fail. *)
Definition failed_alloc (ev : event) : bool :=
  match ev with
  | EvAllocDone _ r | EvWriteDone _ r => negb (is_ok r)
  | _ => false
  end.

Definition failed_call (ev : event) : bool :=
  match ev with
  | EvAllocDone _ r | EvWriteDone _ r | EvUpdateMapping _ _ _ r => negb (is_ok r)
  | _ => false
  end.

(** The pairs (address before, extent) of the extents marked inline. *)
Definition marks_of (tr : list event) : list (paddr_t * LogicalCachedExtentRef) :=
  flat_map (fun ev => match ev with
                      | EvMarkInline e before _ => [(before, e)]
                      | _ => []
                      end) tr.

(** Calls are dispatched concurrently when none is started after another
    has resolved. *)
Fixpoint no_start_after_done (resolved : bool) (tr : list event) : bool :=
  match tr with
  | [] => true
  | ev :: tl =>
      if is_start ev && resolved then false
      else no_start_after_done (resolved || is_done ev) tl
  end.

Definition dispatched_concurrently (tr : list event) : bool :=
  no_start_after_done false tr.

(** The groups whose call was started. *)
Definition started (tr : list event) : list (N * list LogicalCachedExtentRef) :=
  flat_map (fun ev => match ev with
                      | EvAllocStart k es | EvWriteStart k es => [(k, es)]
                      | _ => []
                      end) tr.

Section World.

(** The state of the collaborators: devices, journal, logical index. *)
Variable Env : Type.

Record state := mk_state {
  st_store : extent_store;
  st_trans : Transaction;
  st_rand : nat;
  st_env : Env
}.

Record world := mk_world { w_state : state; w_trace : list event }.

(** The values [std::rand()] returns, in call order. *)
Variable rand_out : nat -> N.

Definition std_rand : M world N :=
  fun w =>
    let s := w_state w in
    (Ok (rand_out (st_rand s)),
     {| w_state := {| st_store := st_store s; st_trans := st_trans s;
                      st_rand := S (st_rand s); st_env := st_env s |};
        w_trace := w_trace w |}).

Definition get_store : M world extent_store :=
  fun w => (Ok (st_store (w_state w)), w).

Definition get_trans : M world Transaction :=
  fun w => (Ok (st_trans (w_state w)), w).

(** A call into a collaborator: [before] and [after] are what is observed
    of it. *)
Definition call (before : list event) (f : state -> outcome unit * state)
    (after : outcome unit -> list event) : M world unit :=
  fun w =>
    let (r, s') := f (w_state w) in
    (r, {| w_state := s'; w_trace := w_trace w ++ before ++ after r |}).

Definition update_extent (st : extent_store) (e : LogicalCachedExtentRef)
    (x : LogicalCachedExtent) : extent_store :=
  fun e' => if Nat.eqb e' e then x else st e'.

Definition set_paddr (x : LogicalCachedExtent) (p : paddr_t) : LogicalCachedExtent :=
  {| ext_type := ext_type x; ext_laddr := ext_laddr x; ext_paddr := p;
     ext_bptr := ext_bptr x; ext_valid := ext_valid x;
     backend_type := backend_type x; hint := hint x |}.

Definition set_placement (x : LogicalCachedExtent) (d : device_type_t)
    (h : ool_placement_hint_t) : LogicalCachedExtent :=
  {| ext_type := ext_type x; ext_laddr := ext_laddr x; ext_paddr := ext_paddr x;
     ext_bptr := ext_bptr x; ext_valid := ext_valid x;
     backend_type := d; hint := h |}.

(** *** [SegmentedAllocator]: choosing writers and writing out of line *)

(** [Writer::write] is defined outside this header. *)
Variable Writer_write :
  N -> list LogicalCachedExtentRef -> state -> outcome unit * state.

Definition call_write (p : N * list LogicalCachedExtentRef) : M world unit :=
  call [EvWriteStart (fst p) (snd p)] (Writer_write (fst p) (snd p))
       (fun r => [EvWriteDone (fst p) r]).

(** [get_writer]: the result is the position of the writer in [writers];
    with no writer the remainder is undefined. *)
Definition get_writer (a : SegmentedAllocator.t) (h : ool_placement_hint_t)
  : M world N :=
  (r <- std_rand ;;
   match SegmentedAllocator.writers a with
   | [] => fail_assert
   | _ :: _ => ret (r mod N.of_nat (length (SegmentedAllocator.writers a)))%N
   end)%fut.

(** The first loop of [alloc_ool_extents_paddr]. *)
Fixpoint group_by_writer (a : SegmentedAllocator.t)
    (extents : list LogicalCachedExtentRef)
    (alloc_map : list (N * list LogicalCachedExtentRef))
  : M world (list (N * list LogicalCachedExtentRef)) :=
  match extents with
  | [] => ret alloc_map
  | extent :: tl =>
      (st <- get_store ;;
       writer <- get_writer a (hint (st extent)) ;;
       group_by_writer a tl (map_emplace_back writer extent alloc_map))%fut
  end.

Definition alloc_ool_extents_paddr (a : SegmentedAllocator.t)
    (extents : list LogicalCachedExtentRef) : M world unit :=
  (alloc_map <- group_by_writer a extents [] ;;
   do_for_each alloc_map call_write)%fut.

(** *** [ExtentPlacementManager] *)

(** [need_delayed_allocation] and [is_logical_type] of seastore_types. *)
Variable need_delayed_allocation : device_type_t -> bool.
Variable is_logical_type : extent_types_t -> bool.

(** The cache creates extents: [Cache::alloc_new_extent_by_type] and
    [Cache::alloc_new_extent<T>], whose last argument asks for a temporary
    address and defaults to [false]. *)
Variable Cache_alloc_new_extent_by_type :
  extent_types_t -> Z -> bool -> state -> LogicalCachedExtentRef * state.
Variable Cache_alloc_new_extent :
  extent_types_t -> Z -> bool -> state -> LogicalCachedExtentRef * state.

(** The final address the cache gives an extent that becomes inline. *)
Variable final_inline_paddr : Transaction -> LogicalCachedExtent -> paddr_t.

(** [ExtentAllocator::alloc_ool_extents_paddr] is virtual. *)
Variable ExtentAllocator_alloc :
  ExtentAllocatorRef -> list LogicalCachedExtentRef -> state -> outcome unit * state.

(** [LBAManager::update_mapping] works on the logical index. *)
Variable LBA_update_mapping :
  laddr_t -> paddr_t -> paddr_t -> Env -> outcome unit * Env.

Record ExtentPlacementManager := mk_epm {
  allocators : device_type_t -> list ExtentAllocatorRef
}.

Definition device_type_eqb (a b : device_type_t) : bool :=
  match a, b with
  | NONE, NONE | SEGMENTED, SEGMENTED
  | RANDOM_BLOCK, RANDOM_BLOCK | PMEM, PMEM => true
  | _, _ => false
  end.

Definition add_allocator (pm : ExtentPlacementManager) (type : device_type_t)
    (allocator : ExtentAllocatorRef) : ExtentPlacementManager :=
  {| allocators := fun d =>
       if device_type_eqb d type then allocators pm d ++ [allocator]
       else allocators pm d |}.

Definition get_allocator_type (h : ool_placement_hint_t) : device_type_t :=
  SEGMENTED.

Definition should_be_inline (extent : LogicalCachedExtentRef) : M world bool :=
  (r <- std_rand ;; ret ((r mod 2) =? 0)%N)%fut.

(** [get_allocator]: [allocators[type]] is empty for a family that has no
    entry in the map; with no allocator registered for the family the
    remainder is undefined. *)
Definition get_allocator (pm : ExtentPlacementManager) (type : device_type_t)
    (h : ool_placement_hint_t) : M world ExtentAllocatorRef :=
  let devices := allocators pm type in
  (r <- std_rand ;;
   match devices with
   | [] => fail_assert
   | _ :: _ =>
       ret (nth (N.to_nat (r mod N.of_nat (length devices))%N) devices 0%N)
   end)%fut.

Definition call_cache (ev : event)
    (f : state -> LogicalCachedExtentRef * state) : M world LogicalCachedExtentRef :=
  fun w =>
    let (e, s') := f (w_state w) in
    (Ok e, {| w_state := s'; w_trace := w_trace w ++ [ev] |}).

(** [extent->backend_type = dtype; extent->hint = hint]. *)
Definition record_placement (e : LogicalCachedExtentRef) (d : device_type_t)
    (h : ool_placement_hint_t) : M world unit :=
  fun w =>
    let s := w_state w in
    (Ok tt,
     {| w_state :=
          {| st_store := update_extent (st_store s) e
                           (set_placement (st_store s e) d h);
             st_trans := st_trans s; st_rand := st_rand s; st_env := st_env s |};
        w_trace := w_trace w |}).

Definition alloc_new_extent_by_type (type : extent_types_t) (length : Z)
    (h : ool_placement_hint_t) : M world LogicalCachedExtentRef :=
  if negb (is_logical_type type) then fail_assert
  else
    let dtype := get_allocator_type h in
    (extent <-
       (if need_delayed_allocation dtype
        then call_cache (EvCacheAllocByType type length true)
                        (Cache_alloc_new_extent_by_type type length true)
        else call_cache (EvCacheAllocByType type length false)
                        (Cache_alloc_new_extent_by_type type length false)) ;;
     record_placement extent dtype h ;;;
     ret extent)%fut.

(** [alloc_new_extent<T>]: [T] is given by its type tag. *)
Definition alloc_new_extent (T : extent_types_t) (length : Z)
    (h : ool_placement_hint_t) : M world LogicalCachedExtentRef :=
  let dtype := get_allocator_type h in
  (extent <-
     (if need_delayed_allocation dtype
      then call_cache (EvCacheAlloc T length true)
                      (Cache_alloc_new_extent T length true)
      else call_cache (EvCacheAlloc T length false)
                      (Cache_alloc_new_extent T length false)) ;;
   record_placement extent dtype h ;;;
   ret extent)%fut.

(** [Transaction::increment_delayed_invalid_extents]. *)
Definition increment_delayed_invalid_extents : M world unit :=
  fun w =>
    let s := w_state w in
    let t := st_trans s in
    (Ok tt,
     {| w_state :=
          {| st_store := st_store s;
             st_trans :=
               {| delayed_alloc_list := delayed_alloc_list t;
                  num_delayed_invalid_extents :=
                    (num_delayed_invalid_extents t + 1)%N;
                  inline_block_list := inline_block_list t |};
             st_rand := st_rand s; st_env := st_env s |};
        w_trace := w_trace w |}).

(** Modelled from the spec: [Cache::mark_delayed_extent_inline] is the
    cache's; it assigns the extent a final address and records the
    transition in the transaction. *)
Definition mark_delayed_extent_inline (e : LogicalCachedExtentRef) : M world unit :=
  fun w =>
    let s := w_state w in
    let t := st_trans s in
    let x := st_store s e in
    let p := final_inline_paddr t x in
    (Ok tt,
     {| w_state :=
          {| st_store := update_extent (st_store s) e (set_paddr x p);
             st_trans :=
               {| delayed_alloc_list := delayed_alloc_list t;
                  num_delayed_invalid_extents := num_delayed_invalid_extents t;
                  inline_block_list := inline_block_list t ++ [e] |};
             st_rand := st_rand s; st_env := st_env s |};
        w_trace := w_trace w ++ [EvMarkInline e (ext_paddr x) p] |}).

Definition alloc_map_t := list (N * list LogicalCachedExtentRef).
Definition inline_list_t := list (paddr_t * LogicalCachedExtentRef).

(** The loop of [delayed_alloc_or_ool_write] over the delayed-allocation
    list. *)
Fixpoint classify (pm : ExtentPlacementManager)
    (alloc_list : list LogicalCachedExtentRef)
    (alloc_map : alloc_map_t) (inline_list : inline_list_t)
  : M world (alloc_map_t * inline_list_t) :=
  match alloc_list with
  | [] => ret (alloc_map, inline_list)
  | extent :: tl =>
      (st <- get_store ;;
       if negb (ext_valid (st extent)) then
         increment_delayed_invalid_extents ;;;
         classify pm tl alloc_map inline_list
       else
         inl <- should_be_inline extent ;;
         if (inl : bool) then
           let old_addr := ext_paddr (st extent) in
           mark_delayed_extent_inline extent ;;;
           classify pm tl alloc_map (inline_list ++ [(old_addr, extent)])
         else
           allocator_ptr <-
             get_allocator pm (backend_type (st extent)) (hint (st extent)) ;;
           classify pm tl (map_emplace_back allocator_ptr extent alloc_map)
                    inline_list)%fut
  end.

Definition call_alloc (p : N * list LogicalCachedExtentRef) : M world unit :=
  call [EvAllocStart (fst p) (snd p)] (ExtentAllocator_alloc (fst p) (snd p))
       (fun r => [EvAllocDone (fst p) r]).

Definition update_mapping (l : laddr_t) (old new : paddr_t) : M world unit :=
  call []
       (fun s =>
          let (r, env') := LBA_update_mapping l old new (st_env s) in
          (r, {| st_store := st_store s; st_trans := st_trans s;
                 st_rand := st_rand s; st_env := env' |}))
       (fun r => [EvUpdateMapping l old new r]).

Definition update_inline (p : paddr_t * LogicalCachedExtentRef) : M world unit :=
  (st <- get_store ;;
   update_mapping (ext_laddr (st (snd p))) (fst p) (ext_paddr (st (snd p))))%fut.

Definition delayed_alloc_or_ool_write (pm : ExtentPlacementManager) : M world unit :=
  (t <- get_trans ;;
   groups <- classify pm (delayed_alloc_list t) [] [] ;;
   do_for_each (fst groups) call_alloc ;;;
   do_for_each (snd groups) update_inline)%fut.

End World.

Arguments mk_state {Env}.
Arguments st_store {Env}.
Arguments st_trans {Env}.
Arguments st_rand {Env}.
Arguments st_env {Env}.
Arguments mk_world {Env}.
Arguments w_state {Env}.
Arguments w_trace {Env}.
Arguments std_rand {Env}.
Arguments get_store {Env}.
Arguments get_trans {Env}.
Arguments call {Env}.
Arguments call_write {Env}.
Arguments get_writer {Env}.
Arguments group_by_writer {Env}.
Arguments alloc_ool_extents_paddr {Env}.
Arguments should_be_inline {Env}.
Arguments get_allocator {Env}.
Arguments call_cache {Env}.
Arguments record_placement {Env}.
Arguments alloc_new_extent_by_type {Env}.
Arguments alloc_new_extent {Env}.
Arguments increment_delayed_invalid_extents {Env}.
Arguments mark_delayed_extent_inline {Env}.
Arguments classify {Env}.
Arguments call_alloc {Env}.
Arguments update_mapping {Env}.
Arguments update_inline {Env}.
Arguments delayed_alloc_or_ool_write {Env}.

(** The extents of a list that are invalid in a store. *)
Definition invalid_in (st : extent_store) (l : list LogicalCachedExtentRef)
  : list LogicalCachedExtentRef :=
  filter (fun e => negb (ext_valid (st e))) l.

Definition valid_in (st : extent_store) (l : list LogicalCachedExtentRef)
  : list LogicalCachedExtentRef :=
  filter (fun e => ext_valid (st e)) l.

(** Two stores that differ in physical addresses only. *)
Definition same_but_paddr (st st' : extent_store) : Prop :=
  forall e,
    ext_valid (st' e) = ext_valid (st e)
    /\ backend_type (st' e) = backend_type (st e)
    /\ hint (st' e) = hint (st e)
    /\ ext_laddr (st' e) = ext_laddr (st e).

(** ** Notions used by further properties *)

(** A handle whose segment has been closed. *)
Definition closed (h : open_segment_wrapper_t) : open_segment_wrapper_t :=
  {| wr_segment := {| seg_id := seg_id (wr_segment h); seg_open := false |};
     inflight_writes := inflight_writes h; outdated := outdated h |}.

(** [l1] lists some of the elements of [l2], in the order of [l2]. *)
Inductive subseq {A : Type} : list A -> list A -> Prop :=
| subseq_nil : subseq [] []
| subseq_skip x l1 l2 : subseq l1 l2 -> subseq l1 (x :: l2)
| subseq_take x l1 l2 : subseq l1 l2 -> subseq (x :: l1) (x :: l2).

(** The list a [std::map] holds under the key [k], empty if it has none. *)
Fixpoint group_of {V} (k : N) (m : list (N * list V)) : list V :=
  match m with
  | [] => []
  | (k', vs) :: tl => if (k =? k')%N then vs else group_of k tl
  end.

(** The store [st'] is [st] but for the family and the hint of [e]. *)
Definition placed (st st' : extent_store) (e : LogicalCachedExtentRef) : Prop :=
  (forall x, x <> e -> st' x = st x)
  /\ ext_type (st' e) = ext_type (st e)
  /\ ext_laddr (st' e) = ext_laddr (st e)
  /\ ext_paddr (st' e) = ext_paddr (st e)
  /\ ext_bptr (st' e) = ext_bptr (st e)
  /\ ext_valid (st' e) = ext_valid (st e).


(** ** Sample inputs *)

(** Every extent holds 4096 bytes. *)
Definition store_small : extent_store :=
  fun _ =>
    mk_extent 7%N 0%N (mk_paddr 0%N 0) (mk_bufferptr 0%N 4096%N)
              true SEGMENTED HINT_NONE.

(** Extents 0 and 1 hold one GiB each, the others 4096 bytes. *)
Definition store_large : extent_store :=
  fun e =>
    mk_extent 7%N 0%N (mk_paddr 0%N 0)
      (mk_bufferptr 0%N (if (e <? 2)%nat then 1073741824%N else 4096%N))
      true SEGMENTED HINT_NONE.

Definition encode_nothing : record_size_t -> record_t -> N -> Z -> segment_nonce_t -> bufferlist :=
  fun _ _ _ _ _ => [].

(** A writer with two open segments, its gate still open; the second
    segment is the current one. *)
Definition writer_two_segments : SegmentedAllocator.Writer :=
  SegmentedAllocator.mk_writer (Some 1%nat)
    [mk_wrapper (mk_segment 3%N true) 0 true;
     mk_wrapper (mk_segment 4%N true) 0 false]
    8192 (mk_gate 0 false) false.

Definition close_succeeds : segment_id_t -> option ct_error := fun _ => None.

(** The device refuses to close segment 3. *)
Definition close_fails_on_3 : segment_id_t -> option ct_error :=
  fun id => if (id =? 3)%N then Some input_output_error else None.

(** The values glibc's [rand()] returns when no seed was set. *)
Definition glibc_rand : nat -> N :=
  fun n =>
    nth n [1804289383; 846930886; 1681692777; 1714636915; 1957747793;
           424238335; 719885386; 1649760492; 596516649; 1189641421]%N 0%N.

(** Extent [e] has logical address [4096 * e] and a temporary address in
    segment 1000; extent 1 was invalidated. *)
Definition sample_store : extent_store :=
  fun e =>
    mk_extent 7%N (4096 * N.of_nat e)%N (mk_paddr 1000%N (4096 * Z.of_nat e))
              (mk_bufferptr 0%N 4096%N) (negb (e =? 1)%nat) SEGMENTED HINT_NONE.

Definition sample_transaction : Transaction :=
  mk_transaction [0; 1; 2; 3]%nat 0%N [].

(** A world in which [rand()] was called [calls] times before. *)
Definition sample_world (calls : nat) : world unit :=
  mk_world (mk_state sample_store sample_transaction calls tt) [].

(** Two allocators, at addresses 100 and 200, for the segmented family. *)
Definition sample_pm : ExtentPlacementManager :=
  add_allocator (add_allocator (mk_epm (fun _ => [])) SEGMENTED 100%N)
                SEGMENTED 200%N.

Definition sample_inline_paddr : Transaction -> LogicalCachedExtent -> paddr_t :=
  fun t x => mk_paddr 0%N (Z.of_N (ext_laddr x)).

Definition alloc_succeeds
  : ExtentAllocatorRef -> list LogicalCachedExtentRef -> state unit
    -> outcome unit * state unit :=
  fun _ _ s => (Ok tt, s).

(** The allocator at address 100, or the writer 0, has no space left. *)
Definition alloc_first_fails
  : N -> list LogicalCachedExtentRef -> state unit -> outcome unit * state unit :=
  fun a _ s => if (a =? 100)%N || (a =? 0)%N then (Err enospc, s) else (Ok tt, s).

Definition update_succeeds
  : laddr_t -> paddr_t -> paddr_t -> unit -> outcome unit * unit :=
  fun _ _ _ env => (Ok tt, env).

Definition two_writers : SegmentedAllocator.t :=
  SegmentedAllocator.mk_allocator [writer_two_segments; writer_two_segments].

(** A cache that creates the extent 9. *)
Definition sample_cache
  : extent_types_t -> Z -> bool -> state unit
    -> LogicalCachedExtentRef * state unit :=
  fun _ _ _ s => (9%nat, s).

(** The segmented family is the one that needs delayed allocation. *)
Definition segmented_is_delayed (d : device_type_t) : bool :=
  match d with SEGMENTED => true | _ => false end.

(** What [std::move] leaves of a record: an empty one. *)
Definition moved_from_is_empty : record_t -> record_t :=
  fun _ => mk_record [] [].

(** A transaction that lists the invalidated extent 1 twice, and nothing
    else. *)
Definition stale_world : world unit :=
  mk_world (mk_state sample_store (mk_transaction [1; 1]%nat 0%N []) 0 tt) [].

(** A placement manager without allocators, an allocator without writers. *)
Definition no_allocators : ExtentPlacementManager := mk_epm (fun _ => []).

Definition no_writers : SegmentedAllocator.t :=
  SegmentedAllocator.mk_allocator [].


(** * Properties *)

(** ** Conversions *)

Lemma to_segment_off_add_l (a b : Z) :
  to_segment_off (to_segment_off a + b) = to_segment_off (a + b).
Proof.
  unfold to_segment_off.
  replace ((a + 2 ^ 31) mod 2 ^ 32 - 2 ^ 31 + b + 2 ^ 31)
    with ((a + 2 ^ 31) mod 2 ^ 32 + b) by ring.
  rewrite Zplus_mod_idemp_l.
  replace (a + 2 ^ 31 + b) with (a + b + 2 ^ 31) by ring.
  reflexivity.
Qed.

Lemma to_segment_off_range (z : Z) :
  - 2 ^ 31 <= to_segment_off z <= MAX_SEG_OFF.
Proof.
  unfold to_segment_off, MAX_SEG_OFF.
  pose proof (Z.mod_pos_bound (z + 2 ^ 31) (2 ^ 32) ltac:(lia)). lia.
Qed.

Lemma to_segment_off_id (z : Z) :
  - 2 ^ 31 <= z <= MAX_SEG_OFF -> to_segment_off z = z.
Proof.
  unfold to_segment_off, MAX_SEG_OFF. intros H.
  rewrite Z.mod_small by lia. lia.
Qed.

Lemma to_size_t_id (z : Z) : 0 <= z < 2 ^ 64 -> to_size_t z = z.
Proof. unfold to_size_t. intros H. now apply Z.mod_small. Qed.

Lemma p2roundup_zero (x : Z) : p2roundup x 0 = 0.
Proof. unfold p2roundup. now rewrite Z.mul_0_r. Qed.

Lemma p2roundup_ge (x a : Z) : 0 < a -> x <= p2roundup x a.
Proof.
  intros Ha. unfold p2roundup.
  pose proof (Z.div_mod (x + a - 1) a ltac:(lia)) as E.
  pose proof (Z.mod_pos_bound (x + a - 1) a Ha) as B.
  nia.
Qed.

(** ** The record builder *)

Module ool_record_facts.
Import ool_record.

Section Builder.

Variable store : extent_store.
Variable extent_info_size : N.
Variable fixed_header_overhead : N.
Variable encode_record :
  record_size_t -> record_t -> N -> Z -> segment_nonce_t -> bufferlist.
Variable moved_from : record_t -> record_t.

Local Abbreviation payload_length := (payload_length store).
Local Abbreviation payload_before := (payload_before store).
Local Abbreviation payload_of := (payload_of store).
Local Abbreviation consistent := (consistent store).
Local Abbreviation built := (built store).
Local Abbreviation add_extent := (add_extent store).
Local Abbreviation batch := (batch store).
Local Abbreviation get_encoded_record_length :=
  (get_encoded_record_length extent_info_size fixed_header_overhead).
Local Abbreviation encoded_length :=
  (encoded_length extent_info_size fixed_header_overhead).
Local Abbreviation encode := (encode store extent_info_size fixed_header_overhead
                                 encode_record moved_from).
Local Abbreviation get_wouldbe_encoded_record_length :=
  (get_wouldbe_encoded_record_length store extent_info_size fixed_header_overhead).

Lemma payload_length_nonneg es : 0 <= payload_length es.
Proof. induction es as [|e tl IH]; simpl; lia. Qed.

Lemma payload_length_app es1 es2 :
  payload_length (es1 ++ es2) = payload_length es1 + payload_length es2.
Proof. induction es1 as [|e tl IH]; simpl; lia. Qed.

Lemma dlength_descriptors es :
  fold_right (fun e acc => bl_length (et_bl e) + acc) 0
             (map (descriptor_of store) es)
  = payload_length es.
Proof.
  induction es as [|e tl IH]; simpl; [reflexivity|].
  rewrite IH. unfold get_bptr. lia.
Qed.

Lemma consistent_dlength st :
  consistent st -> dlength (get_encoded_record_length st) = payload_length (extents st).
Proof.
  intros [Hrec _]. unfold ool_record.get_encoded_record_length,
    get_encoded_record_length_of. simpl.
  rewrite Hrec. apply dlength_descriptors.
Qed.

(** The invariant holds of a new builder and is kept by every operation
    that changes the batch. *)
Lemma consistent_new bs : consistent (ool_record_new bs).
Proof. split; reflexivity. Qed.

Lemma consistent_add_extent st e : consistent st -> consistent (add_extent st e).
Proof.
  intros [Hrec Hlen]. split; simpl.
  - rewrite Hrec, map_app. reflexivity.
  - rewrite Hlen, payload_length_app. simpl. unfold get_bptr. simpl.
    rewrite to_segment_off_add_l. f_equal. lia.
Qed.

Lemma consistent_set_base st b : consistent st -> consistent (set_base st b).
Proof. intros [Hrec Hlen]. split; assumption. Qed.

Lemma consistent_clear st st' : clear st = Some st' -> consistent st'.
Proof.
  unfold clear. destruct (rec_deltas (record st)); [|discriminate].
  intros E. injection E as <-. split; reflexivity.
Qed.

Lemma built_consistent st : built st -> consistent st.
Proof.
  induction 1 as [bs|st e _ IH|st b _ IH|st st' E].
  - apply consistent_new.
  - now apply consistent_add_extent.
  - now apply consistent_set_base.
  - exact (consistent_clear _ _ E).
Qed.

Lemma fold_add_extent_consistent es st :
  consistent st -> consistent (fold_left add_extent es st).
Proof.
  revert st. induction es as [|e tl IH]; intros st H; simpl; [assumption|].
  apply IH. now apply consistent_add_extent.
Qed.

Lemma fold_add_extent_extents es st :
  map lextent (extents (fold_left add_extent es st))
  = map lextent (extents st) ++ es.
Proof.
  revert st. induction es as [|e tl IH]; intros st; simpl.
  - now rewrite app_nil_r.
  - rewrite IH. simpl. rewrite map_app, <- app_assoc. reflexivity.
Qed.

Lemma batch_consistent bs es b : consistent (batch bs es b).
Proof.
  apply consistent_set_base, fold_add_extent_consistent, consistent_new.
Qed.

Lemma batch_extents bs es b : map lextent (extents (batch bs es b)) = es.
Proof. unfold batch. simpl. now rewrite fold_add_extent_extents. Qed.

Lemma batch_base bs es b : get_base (batch bs es b) = b.
Proof. reflexivity. Qed.

Lemma fold_add_extent_block_size es st :
  block_size (fold_left add_extent es st) = block_size st.
Proof.
  revert st. induction es as [|e tl IH]; intros st; simpl; [reflexivity|].
  now rewrite IH.
Qed.

Lemma batch_block_size bs es b : block_size (batch bs es b) = bs.
Proof. unfold ool_record.batch. simpl. now rewrite fold_add_extent_block_size. Qed.

(** The loop of [encode], started at the offset [z] converted to
    [segment_off_t]. *)
Lemma assign_ool_paddrs_spec seg es : forall z es' fin,
  assign_ool_paddrs store seg (to_segment_off z) es = (es', fin) ->
  fin = to_segment_off (z + payload_length es)
  /\ map lextent es' = map lextent es
  /\ forall i e, nth_error es' i = Some e ->
       get_ool_paddr e
       = Some (mk_paddr seg (to_segment_off (z + payload_before i es))).
Proof.
  induction es as [|x tl IH]; intros z es' fin E; simpl in E.
  - injection E as <- <-. repeat split.
    + simpl. f_equal. lia.
    + intros i e H. destruct i; discriminate.
  - rewrite to_segment_off_add_l in E.
    destruct (assign_ool_paddrs store seg _ tl) as [tl' fin'] eqn:Etl.
    injection E as <- <-.
    destruct (IH _ _ _ Etl) as (Hfin & Hmap & Hnth).
    repeat split.
    + rewrite Hfin. simpl. f_equal. lia.
    + simpl. now rewrite Hmap.
    + intros [|i] e H; simpl in H.
      * injection H as <-. unfold payload_before. simpl. f_equal. f_equal.
        f_equal. lia.
      * rewrite (Hnth _ _ H). unfold payload_before. simpl. f_equal. f_equal.
        f_equal. lia.
Qed.

(** [encode] on a consistent builder passes both assertions. *)
Lemma encode_consistent st seg nonce :
  consistent st ->
  exists st',
    encode st seg nonce
    = Some (encode_record (get_encoded_record_length st) (record st)
                          (block_size st) (base st) nonce, st')
    /\ map lextent (extents st') = map lextent (extents st)
    /\ forall i e, nth_error (extents st') i = Some e ->
         get_ool_paddr e
         = Some (mk_paddr seg
                   (to_segment_off
                      (base st + mdlength (get_encoded_record_length st)
                       + payload_before i (extents st)))).
Proof.
  intros Hc. pose proof (consistent_dlength _ Hc) as Hd.
  destruct Hc as [Hrec Hlen].
  assert (Hl : (length (extents st) =? length (rec_extents (record st)))%nat
               = true).
  { rewrite Hrec, length_map. apply Nat.eqb_refl. }
  unfold ool_record.encode. cbv zeta. rewrite Hl. simpl negb. cbv iota.
  destruct (assign_ool_paddrs store seg _ (extents st)) as [es' fin] eqn:E.
  destruct (assign_ool_paddrs_spec _ _ _ _ _ E) as (Hfin & Hmap & Hnth).
  assert (Hb : (fin =? to_segment_off
                         (base st + mdlength (get_encoded_record_length st)
                          + dlength (get_encoded_record_length st))) = true).
  { rewrite Hd, Hfin. apply Z.eqb_refl. }
  match goal with |- context [negb ?b] => replace b with true by (symmetry; exact Hb) end.
  eexists. split; [reflexivity|]. split; assumption.
Qed.

Lemma header_length_nonneg st : 0 <= mdlength (get_encoded_record_length st).
Proof.
  unfold ool_record.get_encoded_record_length, get_encoded_record_length_of.
  simpl. unfold get_encoded_record_raw_mdlength.
  set (raw := Z.of_N fixed_header_overhead + _).
  assert (Hraw : 0 <= raw) by (unfold raw; lia).
  destruct (Z.eq_dec (Z.of_N (block_size st)) 0) as [->|Hnz].
  - now rewrite p2roundup_zero.
  - pose proof (p2roundup_ge raw (Z.of_N (block_size st)) ltac:(lia)). lia.
Qed.

Lemma payload_length_refs l : payload_length l = payload_of (map lextent l).
Proof. induction l as [|x tl IH]; simpl; [reflexivity|]. now rewrite IH. Qed.

Lemma payload_of_nonneg es : 0 <= payload_of es.
Proof. induction es as [|e tl IH]; simpl; lia. Qed.

Lemma payload_of_firstn i es : payload_of (firstn i es) <= payload_of es.
Proof.
  revert i. induction es as [|e tl IH]; intros [|i]; simpl; try lia.
  - pose proof (payload_of_nonneg tl). lia.
  - specialize (IH i). lia.
Qed.

(** ** C1 (amended)

    For a batch of extents [es] whose base offset [b] is not below -2^31
    and whose record ends within the range of [segment_off_t]
    ([b] plus the batch's encoded metadata length plus the payload lengths
    of all its extents is at most [MAX_SEG_OFF]), [encode] assigns the
    extent at position [i] of the insertion order the address made of the
    given segment and of [b] plus the metadata length plus the payload
    lengths of the extents before it, and it returns the buffer
    [encode_record] serializes from the batch's record.  For a batch
    outside that range [encode] still passes its assertions and returns
    that buffer, and the offset it assigns is this sum reduced to
    [segment_off_t]. *)
Theorem encode_assigns_final_addresses
    (bs : N) (es : list LogicalCachedExtentRef) (b : Z)
    (seg : segment_id_t) (nonce : segment_nonce_t) :
  let st := batch bs es b in
  let header_length := mdlength (get_encoded_record_length st) in
  exists st',
    encode st seg nonce
    = Some (encode_record (get_encoded_record_length st) (record st) bs b nonce,
            st')
    /\ map lextent (extents st') = es
    /\ (forall i e, nth_error (extents st') i = Some e ->
          get_ool_paddr e
          = Some (mk_paddr seg
                    (to_segment_off
                       (b + header_length + payload_of (firstn i es)))))
    /\ (- 2 ^ 31 <= b ->
        b + header_length + payload_of es <= MAX_SEG_OFF ->
        forall i e, nth_error (extents st') i = Some e ->
          get_ool_paddr e
          = Some (mk_paddr seg (b + header_length + payload_of (firstn i es)))).
Proof.
  intros st header_length.
  destruct (encode_consistent st seg nonce (batch_consistent bs es b))
    as (st' & E & Hmap & Hnth).
  assert (Hall : forall i e, nth_error (extents st') i = Some e ->
            get_ool_paddr e
            = Some (mk_paddr seg
                      (to_segment_off
                         (b + header_length + payload_of (firstn i es))))).
  { intros i e H. rewrite (Hnth _ _ H). do 4 f_equal.
    unfold ool_record.payload_before.
    rewrite payload_length_refs, <- firstn_map. unfold st.
    now rewrite (batch_extents bs es b). }
  exists st'. split; [|split; [|split; [exact Hall|]]].
  - rewrite E. replace (block_size st) with bs
      by (symmetry; apply batch_block_size).
    reflexivity.
  - rewrite Hmap. apply batch_extents.
  - intros Hb Hmax i e H. rewrite (Hall _ _ H). do 2 f_equal.
    apply to_segment_off_id.
    pose proof (header_length_nonneg st) as Hh. fold header_length in Hh.
    pose proof (payload_of_nonneg (firstn i es)) as Hp.
    pose proof (payload_of_firstn i es) as Hf.
    unfold MAX_SEG_OFF in *. lia.
Qed.

(** ** C2 (amended)

    On a consistent builder whose payload total after the addition still
    fits [segment_off_t] and whose rounded header after the addition is
    below 2^32, [get_wouldbe_encoded_record_length] returns exactly the
    encoded length the batch has after [add_extent], and the builder is
    left as it was. *)
Theorem wouldbe_length_is_length_after_add
    (st : ool_record_t) (e : LogicalCachedExtentRef) :
  consistent st ->
  payload_length (extents st) + Z.of_N (bp_length (ext_bptr (store e)))
    <= MAX_SEG_OFF ->
  mdlength (get_encoded_record_length (add_extent st e)) < 2 ^ 32 ->
  get_wouldbe_encoded_record_length st e
  = (encoded_length (add_extent st e), st).
Proof.
  intros Hc Hpay Hmd.
  pose proof (consistent_dlength _ (consistent_add_extent st e Hc)) as Hd.
  destruct Hc as [Hrec Hlen].
  pose proof (payload_length_nonneg (extents st)) as Hp0.
  unfold ool_record.get_wouldbe_encoded_record_length,
    ool_record.encoded_length. f_equal.
  rewrite Hd. clear Hd.
  unfold ool_record.get_encoded_record_length, get_encoded_record_length_of in *.
  simpl in *.
  unfold get_encoded_record_raw_mdlength in *. simpl in *.
  rewrite length_app in *. simpl length in *.
  rewrite payload_length_app. simpl. unfold get_bptr. simpl.
  set (raw := Z.of_N fixed_header_overhead
              + Z.of_nat (length (rec_extents (record st)))
                * Z.of_N extent_info_size) in *.
  replace (Z.of_N fixed_header_overhead
           + Z.of_nat (length (rec_extents (record st)) + 1)
             * Z.of_N extent_info_size)
    with (raw + Z.of_N extent_info_size) in * by (unfold raw; lia).
  assert (Hraw : 0 <= raw + Z.of_N extent_info_size) by (unfold raw; lia).
  rewrite Hlen, to_segment_off_id by (unfold MAX_SEG_OFF in *; lia).
  destruct (Z.eq_dec (Z.of_N (block_size st)) 0) as [Hz|Hnz].
  - rewrite Hz, !p2roundup_zero. unfold MAX_SEG_OFF in *.
    rewrite (to_size_t_id 0) by lia. rewrite to_size_t_id; lia.
  - assert (Hbs : 0 < Z.of_N (block_size st)) by lia.
    pose proof (p2roundup_ge (raw + Z.of_N extent_info_size) _ Hbs) as Hge.
    rewrite (to_size_t_id (raw + _)) by lia.
    rewrite (to_size_t_id (p2roundup _ _)) by lia.
    unfold MAX_SEG_OFF in *. rewrite to_size_t_id; lia.
Qed.

(** ** Further properties of the record builder *)

Lemma built_no_deltas st : built st -> rec_deltas (record st) = [].
Proof.
  induction 1 as [bs|st e _ IH|st b _ IH|st st' E]; simpl; auto.
  unfold clear in E. destruct (rec_deltas (record st)); [|discriminate].
  now injection E as <-.
Qed.

Lemma encode_frame st seg nonce bl st' :
  encode st seg nonce = Some (bl, st') ->
  base st' = base st /\ block_size st' = block_size st
  /\ extent_buf_len st' = extent_buf_len st
  /\ record st' = moved_from (record st)
  /\ length (extents st) = length (rec_extents (record st)).
Proof.
  unfold ool_record.encode. cbv zeta.
  destruct (length (extents st) =? length (rec_extents (record st)))%nat eqn:El;
    [|discriminate].
  change (negb true) with false. cbv iota.
  destruct (assign_ool_paddrs store seg _ (extents st)) as [es' fin].
  destruct (negb _); [discriminate|].
  intros E. injection E as _ <-. simpl. apply Nat.eqb_eq in El. auto.
Qed.

Lemma payload_before_S i es x :
  nth_error es i = Some x ->
  payload_before (S i) es
  = payload_before i es + Z.of_N (bp_length (get_bptr store x)).
Proof.
  unfold ool_record.payload_before. revert i.
  induction es as [|y tl IH]; intros [|i] H; try discriminate.
  - injection H as <-. simpl. lia.
  - simpl in H. specialize (IH _ H). simpl in *. lia.
Qed.

Lemma payload_before_le i es : payload_before i es <= payload_length es.
Proof.
  unfold ool_record.payload_before.
  rewrite <- (firstn_skipn i es) at 2. rewrite payload_length_app.
  pose proof (payload_length_nonneg (skipn i es)). lia.
Qed.

Lemma payload_before_nonneg i es : 0 <= payload_before i es.
Proof. apply payload_length_nonneg. Qed.

Lemma nth_error_lextent (l l' : list OolExtent) i e' :
  map lextent l' = map lextent l ->
  nth_error l' i = Some e' ->
  exists e, nth_error l i = Some e /\ lextent e = lextent e'.
Proof.
  intros Hm H. apply (map_nth_error lextent) in H. rewrite Hm in H.
  rewrite nth_error_map in H.
  destruct (nth_error l i) as [e|]; [|discriminate].
  exists e. split; [reflexivity|]. simpl in H. congruence.
Qed.

(** ** X1

    No operation of the builder adds a delta to its record, so the
    assertion of [clear] holds in every state the builder's operations
    reach, and [clear] gives back the builder as it was constructed, with
    its block size: no extent, no payload, base at [MAX_SEG_OFF]. *)
Theorem clear_gives_back_the_new_builder (st : ool_record_t) :
  built st -> clear st = Some (ool_record_new (block_size st)).
Proof.
  intros Hb. unfold clear. now rewrite (built_no_deltas _ Hb).
Qed.

(** ** X2

    In every state the builder reaches through construction, [add_extent],
    [set_base] and [clear] (a builder that was not encoded since it was
    constructed or last cleared), both assertions of [encode] hold.
    [encode] gives every tracked extent an address in the given segment
    and changes nothing else of the builder but the record, which it hands
    to [encode_record]: the extents tracked, their order, the base, the
    block size and the payload total stay. *)
Theorem encode_keeps_the_batch
    (st : ool_record_t) (seg : segment_id_t) (nonce : segment_nonce_t) :
  built st ->
  exists st',
    encode st seg nonce
    = Some (encode_record (get_encoded_record_length st) (record st)
                          (block_size st) (base st) nonce, st')
    /\ map lextent (extents st') = map lextent (extents st)
    /\ get_num_extents st' = get_num_extents st
    /\ get_base st' = get_base st
    /\ block_size st' = block_size st
    /\ extent_buf_len st' = extent_buf_len st
    /\ record st' = moved_from (record st)
    /\ Forall (fun e => exists off, get_ool_paddr e = Some (mk_paddr seg off))
              (extents st').
Proof.
  intros Hb.
  destruct (encode_consistent st seg nonce (built_consistent _ Hb))
    as (st' & E & Hmap & Hnth).
  destruct (encode_frame _ _ _ _ _ E) as (H1 & H2 & H3 & H4 & _).
  exists st'. repeat (split; [assumption|]).
  split.
  { unfold get_num_extents. f_equal.
    rewrite <- (length_map lextent (extents st')), Hmap. apply length_map. }
  repeat (split; [assumption|]).
  apply Forall_forall. intros e Hin.
  destruct (In_nth_error _ _ Hin) as [i Hi]. eexists. exact (Hnth _ _ Hi).
Qed.

(** ** X3

    When the record ends within the range of [segment_off_t], [encode] lays
    the payloads out back to back behind the header: the first extent is
    at [base + mdlength], every further extent begins in the same segment
    where the one before it ends, and the last one ends at
    [base + mdlength + dlength]. *)
Theorem encode_lays_payloads_back_to_back
    (st : ool_record_t) (seg : segment_id_t) (nonce : segment_nonce_t) :
  built st ->
  - 2 ^ 31 <= base st ->
  base st + encoded_length st <= MAX_SEG_OFF ->
  exists bl st',
    encode st seg nonce = Some (bl, st')
    /\ (forall e, nth_error (extents st') 0 = Some e ->
          get_ool_paddr e
          = Some (mk_paddr seg
                    (base st + mdlength (get_encoded_record_length st))))
    /\ (forall i e1 e2,
          nth_error (extents st') i = Some e1 ->
          nth_error (extents st') (S i) = Some e2 ->
          exists off,
            get_ool_paddr e1 = Some (mk_paddr seg off)
            /\ get_ool_paddr e2
               = Some (mk_paddr seg
                         (off + Z.of_N (bp_length (get_bptr store e1)))))
    /\ (forall e, nth_error (extents st') (length (extents st') - 1) = Some e ->
          exists off,
            get_ool_paddr e = Some (mk_paddr seg off)
            /\ off + Z.of_N (bp_length (get_bptr store e))
               = base st + encoded_length st).
Proof.
  intros Hb Hlo Hhi.
  pose proof (built_consistent _ Hb) as Hc.
  destruct (encode_consistent st seg nonce Hc) as (st' & E & Hmap & Hnth).
  pose proof (consistent_dlength _ Hc) as Hd.
  pose proof (header_length_nonneg st) as Hh.
  unfold ool_record.encoded_length in *. rewrite Hd in *.
  assert (Hexact : forall i e, nth_error (extents st') i = Some e ->
            get_ool_paddr e
            = Some (mk_paddr seg
                      (base st + mdlength (get_encoded_record_length st)
                       + payload_before i (extents st)))).
  { intros i e H. rewrite (Hnth _ _ H). do 2 f_equal.
    apply to_segment_off_id.
    pose proof (payload_before_le i (extents st)).
    pose proof (payload_before_nonneg i (extents st)).
    unfold MAX_SEG_OFF in *. lia. }
  do 2 eexists. split; [exact E|]. split; [|split].
  - intros e H. rewrite (Hexact _ _ H). do 2 f_equal.
    unfold ool_record.payload_before. simpl. lia.
  - intros i e1 e2 H1 H2. eexists. split; [exact (Hexact _ _ H1)|].
    rewrite (Hexact _ _ H2). do 2 f_equal.
    destruct (nth_error_lextent _ _ _ _ Hmap H1) as (x & Hx & Hl).
    rewrite (payload_before_S _ _ _ Hx). unfold get_bptr. rewrite Hl. lia.
  - intros e H. eexists. split; [exact (Hexact _ _ H)|].
    destruct (nth_error_lextent _ _ _ _ Hmap H) as (x & Hx & Hl).
    assert (Hlen : length (extents st') = length (extents st)).
    { rewrite <- (length_map lextent (extents st')), Hmap. apply length_map. }
    rewrite Hlen in Hx.
    assert (Hn : (length (extents st) - 1 < length (extents st))%nat)
      by (apply nth_error_Some; congruence).
    pose proof (payload_before_S _ _ _ Hx) as HS.
    replace (S (length (extents st) - 1)) with (length (extents st)) in HS
      by lia.
    unfold ool_record.payload_before in HS at 1. rewrite firstn_all in HS.
    rewrite Hlen. unfold get_bptr in *. rewrite <- Hl. lia.
Qed.

(** ** X4

    Until it is encoded the builder keeps its bookkeeping in step with its
    record: in every state it reaches through construction, [add_extent],
    [set_base] and [clear] (a builder that was not encoded since it was
    constructed or last cleared) there is one descriptor for each tracked
    extent and no delta, and as long as the payload total fits
    [segment_off_t] the running total [extent_buf_len] is the data length
    of the record. *)
Theorem bookkeeping_follows_the_record (st : ool_record_t) :
  built st ->
  get_num_extents st = Z.of_nat (length (rec_extents (record st)))
  /\ rec_deltas (record st) = []
  /\ (payload_length (extents st) <= MAX_SEG_OFF ->
      extent_buf_len st = dlength (get_encoded_record_length st)
      /\ 0 <= extent_buf_len st).
Proof.
  intros Hb. pose proof (built_consistent _ Hb) as Hc.
  pose proof (consistent_dlength _ Hc) as Hd.
  destruct Hc as [Hrec Hlen]. split; [|split].
  - unfold get_num_extents. now rewrite Hrec, length_map.
  - exact (built_no_deltas _ Hb).
  - intros Hmax. pose proof (payload_length_nonneg (extents st)) as Hp.
    rewrite Hd, Hlen, to_segment_off_id by (unfold MAX_SEG_OFF in *; lia).
    split; [reflexivity | exact Hp].
Qed.

(** ** X5

    [encode] hands its record over with [std::move].  When that leaves the
    record without descriptors, a second [encode] of a batch that is not
    empty fails the first assertion: the builder has to be cleared before
    it is used again, and [clear] then succeeds if no delta was left
    either. *)
Theorem encode_again_needs_clear
    (st st' : ool_record_t) (seg : segment_id_t) (nonce : segment_nonce_t)
    (bl : bufferlist) :
  encode st seg nonce = Some (bl, st') ->
  extents st <> [] ->
  rec_extents (moved_from (record st)) = [] ->
  encode st' seg nonce = None
  /\ (rec_deltas (moved_from (record st)) = [] ->
      clear st' = Some (ool_record_new (block_size st))).
Proof.
  intros E Hne Hmoved.
  destruct (encode_frame _ _ _ _ _ E) as (_ & Hbs & _ & Hrec & Hlen).
  assert (Hext : length (extents st') = length (extents st)).
  { revert E. unfold ool_record.encode. cbv zeta.
    destruct (negb _); [discriminate|].
    destruct (assign_ool_paddrs store seg _ (extents st)) as [es' fin] eqn:Ea.
    destruct (negb _); [discriminate|].
    intros H. injection H as _ <-. simpl.
    destruct (assign_ool_paddrs_spec _ _ _ _ _ Ea) as (_ & Hm & _).
    rewrite <- (length_map lextent es'), Hm. apply length_map. }
  split.
  - unfold ool_record.encode. rewrite Hrec, Hmoved, Hext. simpl length.
    destruct (extents st); [contradiction|]. reflexivity.
  - intros Hd. unfold clear. rewrite Hrec, Hd, Hbs. reflexivity.
Qed.


End Builder.
End ool_record_facts.


Module ool_record_examples.
Import ool_record.

(** C2 as stated fails once the payload total leaves [segment_off_t]: after
    two extents of one GiB the running total has wrapped to -2^31, and the
    length announced for a further 4096 bytes is not the encoded length the
    batch has after the addition. *)
Lemma wouldbe_length_overflow :
  let st := batch store_large 4096%N [0; 1]%nat 0 in
  built store_large st
  /\ consistent store_large st
  /\ extent_buf_len st = - 2 ^ 31
  /\ fst (get_wouldbe_encoded_record_length store_large 32%N 64%N st 2%nat)
     = 18446744071562076160
  /\ encoded_length 32%N 64%N (add_extent store_large st 2%nat) = 2147491840.
Proof.
  split; [|repeat split].
  unfold batch. simpl. repeat constructor.
Qed.

(** C1 as stated fails once the record leaves [segment_off_t]: behind two
    extents of one GiB the third extent of a batch at base 0 is given the
    offset 4096 - 2^31, and not the sum 4096 + 2^31 of the header and the
    payloads before it. *)
Lemma encode_offset_wraps :
  let st := batch store_large 4096%N [0; 1; 2]%nat 0 in
  exists bl st',
    encode store_large 32%N 64%N encode_nothing moved_from_is_empty st 5%N 9%N
    = Some (bl, st')
    /\ map get_ool_paddr (extents st')
       = [Some (mk_paddr 5%N 4096); Some (mk_paddr 5%N 1073745920);
          Some (mk_paddr 5%N (-2147479552))]
    /\ base st + mdlength (get_encoded_record_length 32%N 64%N st)
       + payload_of store_large [0; 1]%nat = 2147487744
    /\ (-2147479552 =? 2147487744) = false.
Proof.
  intros st. eexists. eexists. split; [vm_compute; reflexivity|].
  repeat split.
Qed.

(** Two extents of 4096 bytes in a record at 8192: one block of header,
    the payloads at 12288 and 16384. *)
Lemma encode_assigns_final_addresses_witness :
  let st := batch store_small 4096%N [0; 1]%nat 8192 in
  8192 + mdlength (get_encoded_record_length 32%N 64%N st)
  + payload_of store_small [0; 1]%nat = 20480
  /\ exists st',
       encode store_small 32%N 64%N encode_nothing moved_from_is_empty st 5%N 9%N
       = Some ([], st')
       /\ map lextent (extents st') = [0; 1]%nat
       /\ (forall i e, nth_error (extents st') i = Some e ->
             get_ool_paddr e
             = Some (mk_paddr 5%N
                       (8192 + 4096 + payload_of store_small
                                        (firstn i [0; 1]%nat)))).
Proof.
  intros st. split; [reflexivity|].
  destruct (ool_record_facts.encode_assigns_final_addresses store_small
              32%N 64%N encode_nothing moved_from_is_empty
              4096%N [0; 1]%nat 8192 5%N 9%N)
    as (st' & He & Hl & _ & Hplain).
  exists st'. split; [exact He|]. split; [exact Hl|].
  apply Hplain.
  - vm_compute. discriminate.
  - vm_compute. discriminate.
Defined.

(** Three extents of 4096 bytes and one block of header. *)
Lemma wouldbe_length_witness :
  let st := batch store_small 4096%N [0; 1]%nat 0 in
  consistent store_small st
  /\ get_wouldbe_encoded_record_length store_small 32%N 64%N st 2%nat
     = (16384, st).
Proof.
  split; [split; reflexivity|].
  rewrite (ool_record_facts.wouldbe_length_is_length_after_add
             store_small 32%N 64%N _ 2%nat).
  - reflexivity.
  - split; reflexivity.
  - vm_compute. discriminate.
  - vm_compute. reflexivity.
Defined.

End ool_record_examples.

(** ** Stopping a writer *)

Module SegmentedAllocator_facts.
Import SegmentedAllocator.

Section Stop.

Variable close_error : segment_id_t -> option ct_error.

Local Abbreviation Segment_close := (Segment_close close_error).
Local Abbreviation close_wrapper := (close_wrapper close_error).
Local Abbreviation Writer_stop := (Writer_stop close_error).
Local Abbreviation accepted := (accepted close_error).

Lemma close_wrapper_ok h h' :
  close_wrapper h = (Ok tt, h') ->
  accepted h /\ seg_open (wr_segment h') = false
  /\ seg_id (wr_segment h') = seg_id (wr_segment h).
Proof.
  unfold SegmentedAllocator.close_wrapper, SegmentedAllocator.Segment_close,
    accepted.
  destruct (close_error (seg_id (wr_segment h))); [discriminate|].
  intros E. injection E as <-. simpl. auto.
Qed.

Lemma close_wrapper_accepted h :
  accepted h -> exists h', close_wrapper h = (Ok tt, h').
Proof.
  unfold SegmentedAllocator.close_wrapper, SegmentedAllocator.Segment_close,
    accepted.
  intros ->. eexists. reflexivity.
Qed.

(** A loop over the handles that succeeds has closed every one of them, and
    it succeeds exactly when the device accepts every close. *)
Lemma close_all_ok hs : forall hs',
  do_for_each_mut close_wrapper hs = (Ok tt, hs') ->
  Forall accepted hs
  /\ Forall (fun h => seg_open (wr_segment h) = false) hs'
  /\ map (fun h => seg_id (wr_segment h)) hs'
     = map (fun h => seg_id (wr_segment h)) hs.
Proof.
  induction hs as [|h tl IH]; intros hs' E; simpl in E.
  - injection E as <-. repeat split; constructor.
  - destruct (close_wrapper h) as [[[]|e|] h'] eqn:Eh; try discriminate.
    destruct (do_for_each_mut close_wrapper tl) as [r tl'] eqn:Etl.
    injection E as -> <-.
    destruct (close_wrapper_ok _ _ Eh) as (Ha & Hc & Hi).
    destruct (IH _ eq_refl) as (Hall & Hcl & Hid).
    repeat split; try constructor; auto. simpl. now rewrite Hi, Hid.
Qed.

Lemma close_all_accepted hs :
  Forall accepted hs -> exists hs', do_for_each_mut close_wrapper hs = (Ok tt, hs').
Proof.
  induction 1 as [|h tl Hh _ [tl' IH]]; simpl.
  - eexists. reflexivity.
  - destruct (close_wrapper_accepted _ Hh) as [h' ->]. rewrite IH.
    eexists. reflexivity.
Qed.

Lemma Writer_stop_stopped w :
  g_stopped (writer_guard (snd (Writer_stop w))) = true.
Proof.
  unfold SegmentedAllocator.Writer_stop, gate_close.
  destruct (g_stopped (writer_guard w)) eqn:E; simpl; [assumption|].
  destruct (do_for_each_mut close_wrapper (open_segments w)). reflexivity.
Qed.

Lemma Writer_stop_again w :
  g_stopped (writer_guard w) = true -> fst (Writer_stop w) = Aborted.
Proof.
  intros H. unfold SegmentedAllocator.Writer_stop, gate_close. now rewrite H.
Qed.

(** ** C6 (amended)

    [stop()] may be called once.  On a writer whose gate has not been
    closed it succeeds exactly when the device accepts the close of every
    tracked open segment, and when it has succeeded every open-segment
    handle the writer tracks is closed (the same segments, in the same
    order).  A second [stop()] trips the assertion of
    [seastar::gate::close]. *)
Theorem stop_closes_segments_once (w : Writer) :
  g_stopped (writer_guard w) = false ->
  (fst (Writer_stop w) = Ok tt <-> Forall accepted (open_segments w))
  /\ (fst (Writer_stop w) = Ok tt ->
      all_closed (snd (Writer_stop w))
      /\ map (fun h => seg_id (wr_segment h)) (open_segments (snd (Writer_stop w)))
         = map (fun h => seg_id (wr_segment h)) (open_segments w))
  /\ fst (Writer_stop (snd (Writer_stop w))) = Aborted.
Proof.
  intros Hg. split; [|split].
  - unfold SegmentedAllocator.Writer_stop, gate_close. rewrite Hg.
    destruct (do_for_each_mut close_wrapper (open_segments w)) as [r hs'] eqn:E.
    simpl. split.
    + intros ->. now destruct (close_all_ok _ _ E).
    + intros Ha. destruct (close_all_accepted _ Ha) as [hs'' E'].
      rewrite E' in E. now injection E as <- _.
  - unfold SegmentedAllocator.Writer_stop, gate_close, all_closed. rewrite Hg.
    destruct (do_for_each_mut close_wrapper (open_segments w)) as [r hs'] eqn:E.
    simpl. intros ->. destruct (close_all_ok _ _ E) as (_ & Hc & Hi). auto.
  - apply Writer_stop_again, Writer_stop_stopped.
Qed.

Lemma Writer_stop_ok w w' :
  Writer_stop w = (Ok tt, w') -> all_closed w'.
Proof.
  unfold SegmentedAllocator.Writer_stop, gate_close, all_closed.
  destruct (g_stopped (writer_guard w)); [discriminate|].
  destruct (do_for_each_mut close_wrapper (open_segments w)) as [r hs'] eqn:E.
  intros H. injection H as -> <-. simpl.
  now destruct (close_all_ok _ _ E) as (_ & Hc & _).
Qed.

(** [SegmentedAllocator::stop] that succeeds has stopped every writer. *)
Lemma allocator_stop_closes_all ws : forall ws',
  do_for_each_mut Writer_stop ws = (Ok tt, ws') -> Forall all_closed ws'.
Proof.
  induction ws as [|w tl IH]; intros ws' E; simpl in E.
  - injection E as <-. constructor.
  - destruct (Writer_stop w) as [[[]|e|] w'] eqn:Ew; try discriminate.
    destruct (do_for_each_mut Writer_stop tl) as [r tl'] eqn:Etl.
    injection E as -> <-. constructor; [|now apply IH].
    exact (Writer_stop_ok _ _ Ew).
Qed.

(** ** Further properties of [stop] *)

Lemma do_for_each_mut_length {A} (f : A -> outcome unit * A) l :
  length (snd (do_for_each_mut f l)) = length l.
Proof.
  induction l as [|x tl IH]; simpl; [reflexivity|].
  destruct (f x) as [[[]|e|] x']; simpl; try reflexivity.
  destruct (do_for_each_mut f tl) as [r tl']. simpl in *. now rewrite IH.
Qed.

(** A loop that fails has changed the elements before the failing one and
    left those after it alone. *)
Lemma do_for_each_mut_fails {A} (f : A -> outcome unit * A) l : forall r l',
  do_for_each_mut f l = (r, l') ->
  is_ok r = false ->
  exists pre x post pre' x',
    l = pre ++ x :: post /\ l' = pre' ++ x' :: post
    /\ Forall2 (fun a a' => f a = (Ok tt, a')) pre pre'
    /\ f x = (r, x').
Proof.
  induction l as [|y tl IH]; intros r l' E Hr; simpl in E.
  - injection E as <- _. discriminate.
  - destruct (f y) as [[[]|e|] y'] eqn:Ey.
    + destruct (do_for_each_mut f tl) as [r0 tl'] eqn:Etl.
      injection E as -> <-.
      destruct (IH _ _ eq_refl Hr) as (pre & x & post & pre' & x' & -> & -> & Hp & Hx).
      exists (y :: pre), x, post, (y' :: pre'), x'.
      repeat split; auto.
    + injection E as <- <-. exists [], y, tl, [], y'. repeat split; auto.
    + injection E as <- <-. exists [], y, tl, [], y'. repeat split; auto.
Qed.

Lemma close_wrapper_closed h h' :
  close_wrapper h = (Ok tt, h') -> h' = closed h.
Proof.
  unfold SegmentedAllocator.close_wrapper, SegmentedAllocator.Segment_close.
  destruct (close_error (seg_id (wr_segment h))); [discriminate|].
  intros E. now injection E as <-.
Qed.

Lemma close_wrapper_refused h e h' :
  close_wrapper h = (Err e, h') ->
  close_error (seg_id (wr_segment h)) = Some e /\ h' = h.
Proof.
  unfold SegmentedAllocator.close_wrapper, SegmentedAllocator.Segment_close.
  destruct (close_error (seg_id (wr_segment h))) as [e0|]; [|discriminate].
  intros E. injection E as -> <-. split; [reflexivity|]. now destruct h.
Qed.

Lemma closed_prefix pre pre' :
  Forall2 (fun a a' => close_wrapper a = (Ok tt, a')) pre pre' ->
  pre' = map closed pre /\ Forall accepted pre.
Proof.
  induction 1 as [|a a' tl tl' Ha _ [-> IH]]; [split; constructor|].
  destruct (close_wrapper_ok _ _ Ha) as (Hacc & _).
  rewrite (close_wrapper_closed _ _ Ha). split; [reflexivity|].
  now constructor.
Qed.

(** ** X6

    A [stop()] of a writer that returns an error has closed the gate and
    the segments up to the first one the device refused to close, in list
    order; the error is the device's, and the refused segment and all the
    segments after it are left as they were, still tracked and still
    open if they were. *)
Theorem failed_stop_leaves_the_rest_open (w w' : Writer) (e : ct_error) :
  Writer_stop w = (Err e, w') ->
  exists pre h post,
    open_segments w = pre ++ h :: post
    /\ Forall accepted pre
    /\ close_error (seg_id (wr_segment h)) = Some e
    /\ open_segments w' = map closed pre ++ h :: post
    /\ g_stopped (writer_guard w') = true.
Proof.
  unfold SegmentedAllocator.Writer_stop, gate_close.
  destruct (g_stopped (writer_guard w)); [discriminate|].
  destruct (do_for_each_mut close_wrapper (open_segments w)) as [r hs'] eqn:E.
  intros H. injection H as -> <-. simpl.
  destruct (do_for_each_mut_fails _ _ _ _ E eq_refl)
    as (pre & h & post & pre' & h' & Hl & -> & Hp & Hh).
  destruct (closed_prefix _ _ Hp) as [-> Hacc].
  destruct (close_wrapper_refused _ _ _ Hh) as [He ->].
  exists pre, h, post. auto.
Qed.

Lemma Writer_stop_stops w w' :
  Writer_stop w = (Ok tt, w') -> g_stopped (writer_guard w') = true.
Proof.
  intros E. pose proof (Writer_stop_stopped w) as H. now rewrite E in H.
Qed.

(** ** X7

    [SegmentedAllocator::stop] stops the writers in turn and drops none.
    When it succeeds every writer has its gate closed and all its segments
    closed.  When it does not, it has ended at the first writer whose
    [stop()] did not succeed, with that writer's outcome: the writers
    before it are stopped, the writers after it are untouched. *)
Theorem allocator_stop_ends_at_the_first_failure (a : t) :
  length (writers (snd (stop close_error a))) = length (writers a)
  /\ (fst (stop close_error a) = Ok tt ->
      Forall (fun w => all_closed w /\ g_stopped (writer_guard w) = true)
             (writers (snd (stop close_error a))))
  /\ (is_ok (fst (stop close_error a)) = false ->
      exists pre w post pre' w',
        writers a = pre ++ w :: post
        /\ writers (snd (stop close_error a)) = pre' ++ w' :: post
        /\ Forall (fun w => all_closed w /\ g_stopped (writer_guard w) = true)
                  pre'
        /\ Writer_stop w = (fst (stop close_error a), w')).
Proof.
  unfold stop.
  pose proof (do_for_each_mut_length Writer_stop (writers a)) as Hlen.
  destruct (do_for_each_mut Writer_stop (writers a)) as [r ws'] eqn:E.
  simpl in *. split; [exact Hlen|]. split.
  - intros ->. clear Hlen. revert ws' E.
    induction (writers a) as [|w tl IH]; intros ws' E; simpl in E.
    + injection E as <-. constructor.
    + destruct (Writer_stop w) as [[[]|e|] w'] eqn:Ew; try discriminate.
      destruct (do_for_each_mut Writer_stop tl) as [r tl'] eqn:Etl.
      injection E as -> <-. constructor; [|now apply IH].
      split; [exact (Writer_stop_ok _ _ Ew) | exact (Writer_stop_stops _ _ Ew)].
  - intros Hr.
    destruct (do_for_each_mut_fails _ _ _ _ E Hr)
      as (pre & w & post & pre' & w' & Hl & -> & Hp & Hw).
    exists pre, w, post, pre', w'. repeat split; auto.
    clear - Hp. induction Hp as [|x x' tl tl' Hx _ IH]; constructor; auto.
    split; [exact (Writer_stop_ok _ _ Hx) | exact (Writer_stop_stops _ _ Hx)].
Qed.


End Stop.

(** C6 as stated fails: the second [stop()] of a writer violates the
    assertion of the gate, also when the first one succeeded; and a
    [stop()] the device refuses in the first segment returns with the
    second segment still open. *)
Lemma stop_twice_aborts :
  fst (Writer_stop close_succeeds writer_two_segments) = Ok tt
  /\ fst (Writer_stop close_succeeds
            (snd (Writer_stop close_succeeds writer_two_segments))) = Aborted
  /\ fst (stop close_succeeds
            (snd (stop close_succeeds (mk_allocator [writer_two_segments]))))
     = Aborted
  /\ fst (Writer_stop close_fails_on_3 writer_two_segments)
     = Err input_output_error
  /\ map (fun h => seg_open (wr_segment h))
         (open_segments (snd (Writer_stop close_fails_on_3 writer_two_segments)))
     = [true; true].
Proof. repeat split. Qed.

Lemma stop_closes_segments_once_witness :
  g_stopped (writer_guard writer_two_segments) = false
  /\ all_closed (snd (Writer_stop close_succeeds writer_two_segments)).
Proof.
  split; [reflexivity|].
  apply (stop_closes_segments_once close_succeeds writer_two_segments);
    reflexivity.
Defined.

End SegmentedAllocator_facts.

(** ** The allocator and the placement manager *)

Lemma sequential_run_ok start done l tr u :
  sequential_run start done l tr (Ok u) ->
  tr = flat_map (fun p => [start (fst p) (snd p); done (fst p) (Ok tt)]) l.
Proof.
  intros H. remember (Ok u) as r eqn:Er. induction H as [|k es tl tr r H IH|];
    subst; simpl.
  - reflexivity.
  - now rewrite IH.
  - discriminate.
Qed.

Lemma sequential_run_started start done l tr r :
  (forall k es, started [start k es] = [(k, es)]) ->
  (forall k x, started [done k x] = []) ->
  sequential_run start done l tr r ->
  exists rest, l = started tr ++ rest /\ (is_ok r = true -> rest = []).
Proof.
  intros Hs Hd H. induction H as [|k es tl tr r H (rest & -> & IH)|k es tl r Hr].
  - exists []. auto.
  - exists rest. split; [|assumption].
    change (start k es :: done k (Ok tt) :: tr)
      with ([start k es] ++ [done k (Ok tt)] ++ tr).
    unfold started in *. rewrite !flat_map_app.
    fold (started [start k es]). fold (started [done k (Ok tt)]).
    now rewrite Hs, Hd.
  - exists tl. split; [|congruence].
    change [start k es; done k r] with ([start k es] ++ [done k r]).
    unfold started in *. rewrite !flat_map_app.
    fold (started [start k es]). fold (started [done k r]).
    now rewrite Hs, Hd.
Qed.

(** The keys of an allocation map stay in ascending order, so no key occurs
    twice. *)
Lemma map_emplace_back_hd {V} (k k' : N) (v : V) m :
  (k' < k)%N -> HdRel N.lt k' (map fst m) ->
  HdRel N.lt k' (map fst (map_emplace_back k v m)).
Proof.
  intros Hk Hm. destruct m as [|[k2 vs] tl]; simpl.
  - now constructor.
  - destruct (k =? k2)%N; [|destruct (k <? k2)%N]; simpl.
    + exact Hm.
    + now constructor.
    + inversion Hm; subst. now constructor.
Qed.

Lemma map_emplace_back_sorted {V} (k : N) (v : V) m :
  Sorted N.lt (map fst m) -> Sorted N.lt (map fst (map_emplace_back k v m)).
Proof.
  induction m as [|[k' vs] tl IH]; simpl; intros Hs.
  - repeat constructor.
  - inversion Hs as [|? ? Htl Hhd]; subst.
    destruct (k =? k')%N eqn:E1; [|destruct (k <? k')%N eqn:E2]; simpl.
    + exact Hs.
    + constructor; [exact Hs|]. constructor. now apply N.ltb_lt.
    + constructor; [now apply IH|]. apply map_emplace_back_hd; [|exact Hhd].
      apply N.eqb_neq in E1. apply N.ltb_ge in E2. lia.
Qed.

Lemma sorted_keys_nodup (ks : list N) : Sorted N.lt ks -> NoDup ks.
Proof.
  intros Hs. apply Sorted_StronglySorted in Hs;
    [|intros x y z; apply N.lt_trans].
  induction Hs as [|k tl Hs IH Hall]; constructor; [|exact IH].
  intros Hin. rewrite Forall_forall in Hall. specialize (Hall _ Hin). lia.
Qed.

Lemma nodup_app_disjoint {A} (l1 l2 : list A) a :
  NoDup (l1 ++ l2) -> In a l1 -> ~ In a l2.
Proof.
  induction l1 as [|x tl IH]; simpl; intros Hnd Hin; [destruct Hin|].
  apply NoDup_cons_iff in Hnd. destruct Hnd as [Hx Hnd].
  destruct Hin as [->|Hin]; [|now apply IH].
  intros H2. apply Hx, in_or_app. now right.
Qed.


Section World_facts.

Variable Env : Type.
Variable rand_out : nat -> N.
Variable Writer_write :
  N -> list LogicalCachedExtentRef -> state Env -> outcome unit * state Env.
Variable need_delayed_allocation : device_type_t -> bool.
Variable is_logical_type : extent_types_t -> bool.
Variable Cache_alloc_new_extent_by_type :
  extent_types_t -> Z -> bool -> state Env -> LogicalCachedExtentRef * state Env.
Variable Cache_alloc_new_extent :
  extent_types_t -> Z -> bool -> state Env -> LogicalCachedExtentRef * state Env.
Variable final_inline_paddr : Transaction -> LogicalCachedExtent -> paddr_t.
Variable ExtentAllocator_alloc :
  ExtentAllocatorRef -> list LogicalCachedExtentRef -> state Env
  -> outcome unit * state Env.
Variable LBA_update_mapping :
  laddr_t -> paddr_t -> paddr_t -> Env -> outcome unit * Env.

Local Abbreviation world := (world Env).
Local Abbreviation get_writer := (get_writer rand_out).
Local Abbreviation group_by_writer := (group_by_writer rand_out).
Local Abbreviation call_write := (call_write Writer_write).
Local Abbreviation alloc_ool_extents_paddr :=
  (alloc_ool_extents_paddr rand_out Writer_write).
Local Abbreviation get_allocator := (get_allocator rand_out).
Local Abbreviation should_be_inline := (should_be_inline rand_out).
Local Abbreviation alloc_new_extent_by_type :=
  (alloc_new_extent_by_type need_delayed_allocation is_logical_type
     Cache_alloc_new_extent_by_type).
Local Abbreviation alloc_new_extent :=
  (alloc_new_extent need_delayed_allocation Cache_alloc_new_extent).
Local Abbreviation mark_delayed_extent_inline :=
  (mark_delayed_extent_inline final_inline_paddr).
Local Abbreviation classify := (classify rand_out final_inline_paddr).
Local Abbreviation call_alloc := (call_alloc ExtentAllocator_alloc).
Local Abbreviation update_inline := (update_inline LBA_update_mapping).
Local Abbreviation delayed_alloc_or_ool_write :=
  (delayed_alloc_or_ool_write rand_out final_inline_paddr ExtentAllocator_alloc
     LBA_update_mapping).

(** A loop of [do_for_each] over the groups of an allocation map. *)
Lemma do_for_each_calls
    (f : N -> list LogicalCachedExtentRef -> state Env -> outcome unit * state Env)
    (start : N -> list LogicalCachedExtentRef -> event)
    (done : N -> outcome unit -> event) l : forall w : world,
  exists tr,
    w_trace (snd (do_for_each l
                    (fun p => call [start (fst p) (snd p)] (f (fst p) (snd p))
                                   (fun r => [done (fst p) r])) w))
    = w_trace w ++ tr
    /\ sequential_run start done l tr
         (fst (do_for_each l
                 (fun p => call [start (fst p) (snd p)] (f (fst p) (snd p))
                                (fun r => [done (fst p) r])) w)).
Proof.
  induction l as [|[k es] tl IH]; intros w; simpl.
  - exists []. split; [now rewrite app_nil_r | constructor].
  - unfold bind, call at 1 3. simpl.
    destruct (f k es (w_state w)) as [[[]|e|] s'] eqn:E; simpl.
    + match goal with |- context [do_for_each tl ?g ?w'] =>
        destruct (IH w') as (tr & Ht & Hr) end.
      exists (start k es :: done k (Ok tt) :: tr). split.
      * rewrite Ht. simpl. now rewrite <- app_assoc.
      * now constructor.
    + exists [start k es; done k (Err e)]. split; [reflexivity|].
      now constructor.
    + exists [start k es; done k Aborted]. split; [reflexivity|].
      now constructor.
Qed.

(** The pass over the inline pairs leaves the extents as they are. *)
Lemma do_for_each_updates l : forall w : world,
  st_store (w_state (snd (do_for_each l update_inline w)))
  = st_store (w_state w)
  /\ exists tr,
       w_trace (snd (do_for_each l update_inline w)) = w_trace w ++ tr
       /\ inline_run (st_store (w_state w)) l tr
            (fst (do_for_each l update_inline w)).
Proof.
  induction l as [|[old e] tl IH]; intros w; simpl.
  - split; [reflexivity|]. exists []. split; [now rewrite app_nil_r | constructor].
  - unfold bind, update_inline at 1 3 5, bind, get_store,
      update_mapping, call. simpl.
    destruct (LBA_update_mapping _ old _ (st_env (w_state w)))
      as [[[]|err|] env'] eqn:E; simpl.
    + match goal with |- context [do_for_each tl ?g ?w'] =>
        destruct (IH w') as (Hs & tr & Ht & Hr) end.
      simpl in Hs, Ht, Hr. split; [assumption|].
      eexists. split.
      * rewrite Ht. rewrite <- app_assoc. reflexivity.
      * simpl. now constructor.
    + split; [reflexivity|]. eexists. split; [reflexivity|]. now constructor.
    + split; [reflexivity|]. eexists. split; [reflexivity|]. now constructor.
Qed.

Ltac classify_cases H pm w e :=
  simpl in H; unfold bind at 1 in H; unfold get_store at 1 in H; simpl in H;
  destruct (ext_valid (st_store (w_state w) e)) eqn:?Ev; simpl in H;
  [ unfold bind at 1 in H;
    unfold should_be_inline at 1, bind at 1, std_rand at 1, ret at 1 in H;
    simpl in H;
    destruct ((rand_out (st_rand (w_state w)) mod 2 =? 0)%N) eqn:?Er;
    [ unfold bind at 1, mark_delayed_extent_inline at 1 in H; simpl in H
    | unfold bind at 1, get_allocator at 1, bind at 1, std_rand at 1 in H;
      simpl in H;
      destruct (allocators pm (backend_type (st_store (w_state w) e))) eqn:?Ea;
      [ unfold fail_assert at 1 in H; simpl in H | unfold ret at 1 in H ] ]
  | unfold bind at 1, increment_delayed_invalid_extents at 1 in H ].

Lemma same_but_paddr_refl st : same_but_paddr st st.
Proof. intros e. auto. Qed.

Lemma same_but_paddr_trans st1 st2 st3 :
  same_but_paddr st1 st2 -> same_but_paddr st2 st3 -> same_but_paddr st1 st3.
Proof.
  intros H12 H23 e. destruct (H12 e) as (? & ? & ? & ?).
  destruct (H23 e) as (? & ? & ? & ?). repeat split; congruence.
Qed.

Lemma same_but_paddr_update st e p :
  same_but_paddr st (update_extent st e (set_paddr (st e) p)).
Proof.
  intros x. unfold update_extent. destruct (Nat.eqb x e) eqn:E; auto.
  apply Nat.eqb_eq in E. subst. simpl. auto.
Qed.

(** The loop over the delayed-allocation list changes physical addresses
    only, calls no allocator and no index update, and queues a pair for each
    extent it marks inline, made of the extent and the address it held just
    before. *)
Lemma classify_frame pm l : forall am il (w : world) r w',
  classify pm l am il w = (r, w') ->
  same_but_paddr (st_store (w_state w)) (st_store (w_state w'))
  /\ st_env (w_state w') = st_env (w_state w)
  /\ exists tr,
       w_trace w' = w_trace w ++ tr
       /\ forallb is_mark tr = true
       /\ forall am' il', r = Ok (am', il') -> il' = il ++ marks_of tr.
Proof.
  induction l as [|e tl IH]; intros am il w r w' H.
  - simpl in H. injection H as <- <-. split; [apply same_but_paddr_refl|].
    split; [reflexivity|]. exists []. simpl. rewrite app_nil_r.
    repeat split. intros am' il' E. injection E as _ <-. now rewrite app_nil_r.
  - classify_cases H pm w e.
    + destruct (IH _ _ _ _ _ H) as (Hs & He & tr & Ht & Hm & Hil). simpl in *.
      split; [|split; [assumption|]].
      * eapply same_but_paddr_trans; [apply same_but_paddr_update | exact Hs].
      * eexists (_ :: tr). split; [rewrite Ht, <- app_assoc; reflexivity|].
        split; [exact Hm|]. intros am' il' E. rewrite (Hil _ _ E).
        simpl. now rewrite <- app_assoc.
    + injection H as <- <-. simpl. split; [apply same_but_paddr_refl|].
      split; [reflexivity|]. exists []. rewrite app_nil_r.
      repeat split. discriminate.
    + destruct (IH _ _ _ _ _ H) as (Hs & He & tr & Ht & Hm & Hil). simpl in *.
      split; [assumption|]. split; [assumption|]. exists tr. auto.
    + destruct (IH _ _ _ _ _ H) as (Hs & He & tr & Ht & Hm & Hil). simpl in *.
      split; [assumption|]. split; [assumption|]. exists tr. auto.
Qed.

Lemma map_emplace_back_values {V} (k : N) (v : V) m :
  Permutation (map_values (map_emplace_back k v m)) (map_values m ++ [v]).
Proof.
  unfold map_values. induction m as [|[k' vs] tl IH]; simpl.
  - reflexivity.
  - destruct (k =? k')%N; [|destruct (k <? k')%N]; simpl.
    + rewrite <- !app_assoc. apply Permutation_app_head, Permutation_app_comm.
    + apply (Permutation_cons_append (vs ++ concat (map snd tl)) v).
    + rewrite <- app_assoc. now apply Permutation_app_head.
Qed.

Lemma valid_in_same st st' l :
  same_but_paddr st st' -> valid_in st' l = valid_in st l.
Proof.
  intros H. unfold valid_in. apply filter_ext. intros e.
  now destruct (H e) as (-> & _).
Qed.

Lemma invalid_in_same st st' l :
  same_but_paddr st st' -> invalid_in st' l = invalid_in st l.
Proof.
  intros H. unfold invalid_in. apply filter_ext. intros e.
  now destruct (H e) as (-> & _).
Qed.

(** What the loop has done when it ends: one increment of the counter for
    each invalid extent, and each valid extent in the inline list or in one
    group of the allocation map. *)
Lemma classify_placement pm l : forall am il (w : world) am' il' w',
  classify pm l am il w = (Ok (am', il'), w') ->
  num_delayed_invalid_extents (st_trans (w_state w'))
  = (num_delayed_invalid_extents (st_trans (w_state w))
     + N.of_nat (length (invalid_in (st_store (w_state w)) l)))%N
  /\ Permutation (map snd il' ++ map_values am')
                 (map snd il ++ map_values am
                  ++ valid_in (st_store (w_state w)) l).
Proof.
  induction l as [|e tl IH]; intros am il w am' il' w' H.
  - simpl in H. injection H as <- <- <-. simpl. rewrite N.add_0_r, app_nil_r.
    split; reflexivity.
  - unfold invalid_in, valid_in. simpl filter. fold (invalid_in (st_store (w_state w)) tl).
    fold (valid_in (st_store (w_state w)) tl).
    classify_cases H pm w e; simpl negb; cbv iota.
    + destruct (IH _ _ _ _ _ _ H) as (Hn & Hp). simpl in Hn, Hp.
      rewrite (invalid_in_same _ _ _ (same_but_paddr_update _ _ _)) in Hn.
      rewrite (valid_in_same _ _ _ (same_but_paddr_update _ _ _)) in Hp.
      split; [assumption|]. rewrite Hp, map_app. simpl.
      rewrite <- app_assoc. apply Permutation_app_head. simpl.
      apply Permutation_middle.
    + discriminate.
    + destruct (IH _ _ _ _ _ _ H) as (Hn & Hp). simpl in Hn, Hp.
      split; [assumption|]. rewrite Hp. apply Permutation_app_head.
      rewrite map_emplace_back_values, <- app_assoc. reflexivity.
    + destruct (IH _ _ _ _ _ _ H) as (Hn & Hp). simpl in Hn, Hp.
      split; [|assumption]. rewrite Hn. simpl length. lia.
Qed.

(** With an allocator registered for the family of every valid extent, the
    loop ends. *)
Lemma classify_total pm l : forall am il (w : world),
  (forall e, In e l -> ext_valid (st_store (w_state w) e) = true ->
             allocators pm (backend_type (st_store (w_state w) e)) <> []) ->
  exists am' il' w', classify pm l am il w = (Ok (am', il'), w').
Proof.
  induction l as [|e tl IH]; intros am il w Hreg.
  - simpl. do 3 eexists. reflexivity.
  - destruct (classify pm (e :: tl) am il w) as [r w'] eqn:H.
    classify_cases H pm w e.
    + match type of H with classify pm tl ?a ?i ?w1 = _ =>
        destruct (IH a i w1) as (am' & il' & w2 & E) end.
      { simpl. intros x Hx Hv.
        destruct (same_but_paddr_update (st_store (w_state w)) e
                    (final_inline_paddr (st_trans (w_state w))
                                        (st_store (w_state w) e)) x)
          as (Hv' & Hb' & _).
        rewrite Hb'. rewrite Hv' in Hv. apply Hreg; [now right | assumption]. }
      rewrite E in H. injection H as <- <-. eauto.
    + exfalso. apply (Hreg e); [now left | assumption | assumption].
    + match type of H with classify pm tl ?a ?i ?w1 = _ =>
        destruct (IH a i w1) as (am' & il' & w2 & E) end.
      { simpl. intros x Hx Hv. apply Hreg; [now right | assumption]. }
      rewrite E in H. injection H as <- <-. eauto.
    + match type of H with classify pm tl ?a ?i ?w1 = _ =>
        destruct (IH a i w1) as (am' & il' & w2 & E) end.
      { simpl. intros x Hx Hv. apply Hreg; [now right | assumption]. }
      rewrite E in H. injection H as <- <-. eauto.
Qed.

Lemma marks_not_calls tr :
  forallb is_mark tr = true ->
  existsb failed_call tr = false /\ existsb failed_alloc tr = false
  /\ existsb is_update tr = false /\ started tr = [].
Proof.
  induction tr as [|ev tl IH]; simpl; [auto|].
  destruct ev; simpl; try discriminate. exact IH.
Qed.

Lemma alloc_run_events l tr r :
  sequential_run EvAllocStart EvAllocDone l tr r ->
  existsb is_update tr = false
  /\ existsb failed_call tr = negb (is_ok r)
  /\ existsb failed_alloc tr = negb (is_ok r).
Proof.
  induction 1 as [|k es tl tr r H IH|k es tl r Hr]; simpl; auto.
  rewrite Hr. simpl. auto.
Qed.

Lemma inline_run_events st l tr r :
  inline_run st l tr r ->
  existsb failed_alloc tr = false
  /\ existsb failed_call tr = negb (is_ok r)
  /\ forallb is_update tr = true.
Proof.
  induction 1 as [|old e tl tr r H (Ha & Hc & Hu)|old e tl r Hr]; simpl.
  - auto.
  - auto.
  - rewrite Hr. auto.
Qed.

(** The run of [delayed_alloc_or_ool_write] after its loop has ended: the
    groups of the allocation map are handed to their allocators, and the
    inline pairs are processed once that has succeeded. *)
Lemma run_after_classify pm (w : world) groups w1 :
  classify pm (delayed_alloc_list (st_trans (w_state w))) [] [] w
  = (Ok groups, w1) ->
  exists tr_ool tr_upd,
    let ool := do_for_each (fst groups) call_alloc w1 in
    w_trace (snd ool) = w_trace w1 ++ tr_ool
    /\ sequential_run EvAllocStart EvAllocDone (fst groups) tr_ool (fst ool)
    /\ w_trace (snd (delayed_alloc_or_ool_write pm w))
       = w_trace w1 ++ tr_ool ++ tr_upd
    /\ (is_ok (fst ool) = true ->
        inline_run (st_store (w_state (snd ool))) (snd groups) tr_upd
                   (fst (delayed_alloc_or_ool_write pm w)))
    /\ (is_ok (fst ool) = false ->
        tr_upd = []
        /\ is_ok (fst (delayed_alloc_or_ool_write pm w)) = false).
Proof.
  intros Hc.
  destruct (do_for_each_calls ExtentAllocator_alloc EvAllocStart EvAllocDone
              (fst groups) w1) as (tr_ool & Ht & Hr).
  fold call_alloc in Ht, Hr.
  assert (Erun : delayed_alloc_or_ool_write pm w
                 = match do_for_each (fst groups) call_alloc w1 with
                   | (Ok _, w2) => do_for_each (snd groups) update_inline w2
                   | (Err e, w2) => (Err e, w2)
                   | (Aborted, w2) => (Aborted, w2)
                   end).
  { unfold delayed_alloc_or_ool_write, bind, get_trans. simpl.
    rewrite Hc. reflexivity. }
  rewrite Erun. clear Erun.
  destruct (do_for_each (fst groups) call_alloc w1) as [[[]|e|] w2] eqn:E;
    simpl in *.
  - destruct (do_for_each_updates (snd groups) w2) as (_ & tr_upd & Hu & Hi).
    exists tr_ool, tr_upd.
    split; [exact Ht|]. split; [exact Hr|].
    split; [rewrite Hu, Ht, <- app_assoc; reflexivity|].
    split; [intros _; exact Hi | intros D; discriminate D].
  - exists tr_ool, []. rewrite app_nil_r.
    split; [exact Ht|]. split; [exact Hr|]. split; [exact Ht|].
    split; [intros D; discriminate D | auto].
  - exists tr_ool, []. rewrite app_nil_r.
    split; [exact Ht|]. split; [exact Hr|]. split; [exact Ht|].
    split; [intros D; discriminate D | auto].
Qed.

Lemma classify_sorted pm l : forall am il (w : world) am' il' w',
  classify pm l am il w = (Ok (am', il'), w') ->
  Sorted N.lt (map fst am) -> Sorted N.lt (map fst am').
Proof.
  induction l as [|e tl IH]; intros am il w am' il' w' H Hs.
  - simpl in H. now injection H as <- <- <-.
  - classify_cases H pm w e.
    + eapply IH; eauto.
    + discriminate.
    + eapply IH; [exact H|]. now apply map_emplace_back_sorted.
    + eapply IH; eauto.
Qed.

(** When no extent is listed twice, the address queued with an inline
    extent is the one it held when the pass began. *)
Lemma classify_old_addresses pm l : forall am il (w : world) am' il' w',
  NoDup l ->
  classify pm l am il w = (Ok (am', il'), w') ->
  forall old e, In (old, e) il' ->
    In (old, e) il
    \/ (In e l /\ old = ext_paddr (st_store (w_state w) e)).
Proof.
  induction l as [|x tl IH]; intros am il w am' il' w' Hnd H old e Hin.
  - simpl in H. injection H as <- <- <-. now left.
  - inversion Hnd as [|? ? Hx Htl]; subst.
    classify_cases H pm w x.
    + destruct (IH _ _ _ _ _ _ Htl H _ _ Hin) as [Hil|[He Ho]].
      * apply in_app_or in Hil. destruct Hil as [Hil|[Hil|[]]]; [now left|].
        injection Hil as <- <-. right. split; [now left | reflexivity].
      * right. split; [now right|]. simpl in Ho. unfold update_extent in Ho.
        destruct (Nat.eqb e x) eqn:Ex; [|assumption].
        apply Nat.eqb_eq in Ex. subst. contradiction.
    + discriminate.
    + destruct (IH _ _ _ _ _ _ Htl H _ _ Hin) as [Hil|[He Ho]];
        [now left | right; split; [now right | assumption]].
    + destruct (IH _ _ _ _ _ _ Htl H _ _ Hin) as [Hil|[He Ho]];
        [now left | right; split; [now right | assumption]].
Qed.

(** A loop that does not end well ends the whole call, with no allocator
    and no index update called. *)
Lemma run_classify_fails pm (w : world) r w1 :
  classify pm (delayed_alloc_list (st_trans (w_state w))) [] [] w = (r, w1) ->
  is_ok r = false ->
  snd (delayed_alloc_or_ool_write pm w) = w1
  /\ is_ok (fst (delayed_alloc_or_ool_write pm w)) = false.
Proof.
  intros Hc Hr. unfold delayed_alloc_or_ool_write, bind, get_trans. simpl.
  rewrite Hc. destruct r; [discriminate| |]; split; reflexivity.
Qed.

(** The first loop of [alloc_ool_extents_paddr] calls no writer and puts
    every extent of the batch in the group of one writer. *)
Lemma group_by_writer_spec a l : forall am (w : world) am' w',
  group_by_writer a l am w = (Ok am', w') ->
  w_trace w' = w_trace w
  /\ Permutation (map_values am') (map_values am ++ l)
  /\ (Sorted N.lt (map fst am) -> Sorted N.lt (map fst am')).
Proof.
  induction l as [|e tl IH]; intros am w am' w' H.
  - simpl in H. injection H as <- <-. rewrite app_nil_r. auto.
  - simpl in H. unfold bind at 1, get_store at 1 in H. simpl in H.
    unfold bind at 1, get_writer at 1, bind at 1, std_rand at 1 in H.
    simpl in H. destruct (SegmentedAllocator.writers a) eqn:Ew.
    + discriminate.
    + unfold ret at 1 in H. destruct (IH _ _ _ _ H) as (Ht & Hp & Hs).
      simpl in Ht. split; [assumption|]. split.
      * rewrite Hp, map_emplace_back_values, <- app_assoc. reflexivity.
      * intros Hsorted. now apply Hs, map_emplace_back_sorted.
Qed.

(** When no extent is listed twice, an extent is marked inline at most
    once: the address its mark gave it is the one it holds when the loop
    ends, and the extents that are not listed keep their address. *)
Lemma classify_marks pm l : forall am il (w : world) r w',
  NoDup l ->
  classify pm l am il w = (r, w') ->
  (forall x, ~ In x l ->
             ext_paddr (st_store (w_state w') x)
             = ext_paddr (st_store (w_state w) x))
  /\ exists tr,
       w_trace w' = w_trace w ++ tr
       /\ forall e old new, In (EvMarkInline e old new) tr ->
            In e l /\ new = ext_paddr (st_store (w_state w') e).
Proof.
  induction l as [|x tl IH]; intros am il w r w' Hnd H.
  - simpl in H. injection H as <- <-. split; [reflexivity|].
    exists []. rewrite app_nil_r. split; [reflexivity|]. intros ? ? ? [].
  - inversion Hnd as [|? ? Hx Htl]; subst.
    classify_cases H pm w x.
    + destruct (IH _ _ _ _ _ Htl H) as (Hfr & tr & Ht & Hmk). simpl in Hfr, Ht.
      split.
      * intros y Hy. rewrite Hfr by (intros Hin; apply Hy; now right).
        unfold update_extent. destruct (Nat.eqb y x) eqn:E; [|reflexivity].
        apply Nat.eqb_eq in E. subst. exfalso. apply Hy. now left.
      * eexists (_ :: tr). split; [rewrite Ht, <- app_assoc; reflexivity|].
        intros e' old new [Hev|Hev].
        -- injection Hev as <- <- <-. split; [now left|].
           rewrite (Hfr x Hx). unfold update_extent. now rewrite Nat.eqb_refl.
        -- destruct (Hmk _ _ _ Hev) as [He Hn]. split; [now right | exact Hn].
    + injection H as <- <-. simpl. split; [reflexivity|].
      exists []. rewrite app_nil_r. split; [reflexivity|]. intros ? ? ? [].
    + destruct (IH _ _ _ _ _ Htl H) as (Hfr & tr & Ht & Hmk). simpl in Hfr, Ht.
      split; [intros y Hy; apply Hfr; intros Hin; apply Hy; now right|].
      exists tr. split; [exact Ht|]. intros e' old new Hev.
      destruct (Hmk _ _ _ Hev) as [He Hn]. split; [now right | exact Hn].
    + destruct (IH _ _ _ _ _ Htl H) as (Hfr & tr & Ht & Hmk). simpl in Hfr, Ht.
      split; [intros y Hy; apply Hfr; intros Hin; apply Hy; now right|].
      exists tr. split; [exact Ht|]. intros e' old new Hev.
      destruct (Hmk _ _ _ Hev) as [He Hn]. split; [now right | exact Hn].
Qed.

Lemma marks_of_in tr old e :
  In (old, e) (marks_of tr) -> exists new, In (EvMarkInline e old new) tr.
Proof.
  induction tr as [|ev tl IH]; simpl; [intros []|].
  intros Hin. apply in_app_or in Hin. destruct Hin as [Hin|Hin].
  - destruct ev; try contradiction. destruct Hin as [Hin|[]].
    injection Hin as <- <-. eexists. left. reflexivity.
  - destruct (IH Hin) as [new Hn]. exists new. now right.
Qed.

(** Allocators that change no address outside the group they are handed
    leave the extents outside all groups at their address. *)
Lemma do_for_each_alloc_frame groups : forall w : world,
  (forall a es s x, ~ In x es ->
     ext_paddr (st_store (snd (ExtentAllocator_alloc a es s)) x)
     = ext_paddr (st_store s x)) ->
  forall x, ~ In x (map_values groups) ->
    ext_paddr (st_store (w_state (snd (do_for_each groups call_alloc w))) x)
    = ext_paddr (st_store (w_state w) x).
Proof.
  induction groups as [|[k es] tl IH]; intros w Hfr x Hx; simpl; [reflexivity|].
  unfold map_values in Hx. simpl in Hx.
  assert (Hes : ~ In x es) by (intros H; apply Hx, in_or_app; now left).
  assert (Htl : ~ In x (map_values tl)) by (intros H; apply Hx, in_or_app; now right).
  specialize (Hfr k es (w_state w) x Hes) as Hk.
  unfold bind, call_alloc at 1, call. simpl.
  destruct (ExtentAllocator_alloc k es (w_state w)) as [[[]|e|] s'] eqn:E;
    simpl in *; try exact Hk.
  rewrite IH by assumption. exact Hk.
Qed.

(** ** C3

    With an allocator registered for the family of every valid extent, the
    loop of [delayed_alloc_or_ool_write] over the delayed-allocation list
    ends; it has incremented the counter of invalid extents once for each
    listed extent whose validity flag is false, such an extent is neither in
    the inline list nor in a group of the allocation map nor in any call
    started afterwards, and the valid extents are, each once, in the inline
    list or in one group. *)
Theorem invalid_extents_are_dropped (pm : ExtentPlacementManager) (w : world) :
  let st := st_store (w_state w) in
  let l := delayed_alloc_list (st_trans (w_state w)) in
  (forall e, In e l -> ext_valid (st e) = true ->
             allocators pm (backend_type (st e)) <> []) ->
  exists am il w1,
    classify pm l [] [] w = (Ok (am, il), w1)
    /\ num_delayed_invalid_extents (st_trans (w_state w1))
       = (num_delayed_invalid_extents (st_trans (w_state w))
          + N.of_nat (length (invalid_in st l)))%N
    /\ (forall e, In e l -> ext_valid (st e) = false ->
          ~ In e (map snd il) /\ ~ In e (map_values am)
          /\ forall k es,
               In (k, es) (started (w_trace (snd (delayed_alloc_or_ool_write pm w))))
               -> In (k, es) (started (w_trace w)) \/ ~ In e es)
    /\ Permutation (map snd il ++ map_values am) (valid_in st l).
Proof.
  intros st l Hreg.
  destruct (classify_total pm l [] [] w Hreg) as (am & il & w1 & Hc).
  exists am, il, w1. split; [exact Hc|].
  destruct (classify_placement _ _ _ _ _ _ _ _ Hc) as (Hn & Hp).
  simpl in Hp. split; [exact Hn|]. split; [|exact Hp].
  intros e Hin Hv.
  assert (Hnot : ~ In e (map snd il ++ map_values am)).
  { intros Hpl. apply (Permutation_in _ Hp) in Hpl.
    unfold valid_in in Hpl. apply filter_In in Hpl. fold st in Hpl.
    destruct Hpl as [_ Hpl]. congruence. }
  split; [intros H; apply Hnot, in_or_app; now left|].
  split; [intros H; apply Hnot, in_or_app; now right|].
  intros k es Hst.
  destruct (classify_frame _ _ _ _ _ _ _ Hc) as (_ & _ & marks & Hm & Hmk & _).
  destruct (run_after_classify pm w (am, il) w1 Hc)
    as (tr_ool & tr_upd & Ht & Hr & Hrun & Hok & Hfail).
  simpl in Ht, Hr, Hrun, Hok, Hfail.
  rewrite Hrun, Hm in Hst. unfold started in Hst.
  rewrite !flat_map_app in Hst. fold (started (w_trace w)) in Hst.
  fold (started marks) in Hst. fold (started tr_ool) in Hst.
  fold (started tr_upd) in Hst.
  destruct (marks_not_calls _ Hmk) as (_ & _ & _ & Hs0).
  rewrite Hs0, app_nil_r in Hst.
  apply in_app_or in Hst. destruct Hst as [Hst|Hst]; [now left|].
  apply in_app_or in Hst. destruct Hst as [Hst|Hst].
  - right. intros He. apply Hnot, in_or_app. right.
    destruct (sequential_run_started EvAllocStart EvAllocDone _ _ _
                (fun _ _ => eq_refl) (fun _ _ => eq_refl) Hr)
      as (rest & Hgroups & _).
    unfold map_values. apply in_concat. exists es. split; [|exact He].
    apply in_map_iff. exists (k, es). split; [reflexivity|].
    rewrite Hgroups. apply in_or_app. now left.
  - exfalso.
    assert (Hupd : started tr_upd = []).
    { destruct (is_ok (fst (do_for_each am call_alloc w1))) eqn:Eok.
      - specialize (Hok eq_refl). clear - Hok.
        induction Hok; simpl; auto.
      - now destruct (Hfail eq_refl) as [-> _]. }
    rewrite Hupd in Hst. destruct Hst.
Qed.

(** ** C4

    When the loop has ended, the calls observed of
    [delayed_alloc_or_ool_write] are, in this order: the marking of the
    inline extents, the calls of [alloc_ool_extents_paddr] group after
    group, and the calls of [update_mapping].  No [update_mapping] is
    issued before the last group has resolved, and none at all unless every
    group resolved successfully.  The inline pairs are then processed in
    the order they were queued, each with the logical address of its extent,
    the address the extent held just before it was marked inline (the one it
    held when the pass began, if no extent is listed twice) and the address
    the extent holds when the update is issued (the one it was given when
    it was marked inline, if no extent is listed twice and the allocators
    change no address outside the group they are handed). *)
Theorem inline_updates_follow_ool_groups
    (pm : ExtentPlacementManager) (w : world) groups w1 :
  classify pm (delayed_alloc_list (st_trans (w_state w))) [] [] w
  = (Ok groups, w1) ->
  let ool := do_for_each (fst groups) call_alloc w1 in
  exists marks tr_ool tr_upd,
    w_trace (snd (delayed_alloc_or_ool_write pm w))
    = w_trace w ++ marks ++ tr_ool ++ tr_upd
    /\ forallb is_mark marks = true
    /\ snd groups = marks_of marks
    /\ existsb is_update (marks ++ tr_ool) = false
    /\ sequential_run EvAllocStart EvAllocDone (fst groups) tr_ool (fst ool)
    /\ (is_ok (fst ool) = true ->
        tr_ool = flat_map (fun p => [EvAllocStart (fst p) (snd p);
                                     EvAllocDone (fst p) (Ok tt)]) (fst groups)
        /\ inline_run (st_store (w_state (snd ool))) (snd groups) tr_upd
                      (fst (delayed_alloc_or_ool_write pm w)))
    /\ (is_ok (fst ool) = false -> tr_upd = [])
    /\ (NoDup (delayed_alloc_list (st_trans (w_state w))) ->
        forall old e, In (old, e) (snd groups) ->
          old = ext_paddr (st_store (w_state w) e)
          /\ ((forall a es s x, ~ In x es ->
                 ext_paddr (st_store (snd (ExtentAllocator_alloc a es s)) x)
                 = ext_paddr (st_store s x)) ->
              In (EvMarkInline e old (ext_paddr (st_store (w_state (snd ool)) e)))
                 marks)).
Proof.
  intros Hc ool. destruct groups as [am il].
  destruct (classify_frame _ _ _ _ _ _ _ Hc) as (_ & _ & marks & Hm & Hmk & Hil).
  destruct (run_after_classify pm w (am, il) w1 Hc)
    as (tr_ool & tr_upd & Ht & Hr & Hrun & Hok & Hfail).
  simpl in Ht, Hr, Hrun, Hok, Hfail. subst ool. simpl.
  exists marks, tr_ool, tr_upd.
  split; [rewrite Hrun, Hm, <- app_assoc; reflexivity|].
  split; [exact Hmk|].
  split; [exact (Hil _ _ eq_refl)|].
  split.
  { rewrite existsb_app. destruct (marks_not_calls _ Hmk) as (_ & _ & -> & _).
    now destruct (alloc_run_events _ _ _ Hr) as (-> & _). }
  split; [exact Hr|].
  split.
  { intros Eok. split; [|exact (Hok Eok)].
    revert Hr Eok. clear.
    destruct (fst (do_for_each am call_alloc w1)) as [[]| |];
      intros Hr Eok; try discriminate.
    exact (sequential_run_ok _ _ _ _ _ Hr). }
  split; [intros Eok; now destruct (Hfail Eok)|].
  intros Hnd old e Hin.
  destruct (classify_old_addresses _ _ _ _ _ _ _ _ Hnd Hc _ _ Hin) as [[]|[_ Ho]].
  split; [exact Ho|]. intros Hframe.
  destruct (classify_marks _ _ _ _ _ _ _ Hnd Hc) as (_ & tr & Htr & Hmarks).
  rewrite Hm in Htr. apply app_inv_head in Htr. subst tr.
  pose proof Hin as Hin'. rewrite (Hil _ _ eq_refl) in Hin'. simpl in Hin'.
  destruct (marks_of_in _ _ _ Hin') as [new Hnew].
  destruct (Hmarks _ _ _ Hnew) as [_ ->].
  rewrite do_for_each_alloc_frame; [exact Hnew | exact Hframe |].
  destruct (classify_placement _ _ _ _ _ _ _ _ Hc) as (_ & Hp). simpl in Hp.
  apply (nodup_app_disjoint (map snd il)).
  - apply (Permutation_NoDup (Permutation_sym Hp)). now apply NoDup_filter.
  - apply in_map_iff. exists (old, e). split; [reflexivity | exact Hin].
Qed.

(** ** C5

    [delayed_alloc_or_ool_write] resolves successfully only if no call of
    an allocator and no call of [update_mapping] it made has failed; one
    failed call fails it; and once a call of an allocator has failed, no
    [update_mapping] is issued. *)
Theorem any_failure_fails_the_resolution
    (pm : ExtentPlacementManager) (w : world) :
  exists tr,
    w_trace (snd (delayed_alloc_or_ool_write pm w)) = w_trace w ++ tr
    /\ (fst (delayed_alloc_or_ool_write pm w) = Ok tt ->
        existsb failed_call tr = false)
    /\ (existsb failed_call tr = true ->
        is_ok (fst (delayed_alloc_or_ool_write pm w)) = false)
    /\ (existsb failed_alloc tr = true -> existsb is_update tr = false).
Proof.
  destruct (classify pm (delayed_alloc_list (st_trans (w_state w))) [] [] w)
    as [rc w1] eqn:Hc.
  destruct (classify_frame _ _ _ _ _ _ _ Hc) as (_ & _ & marks & Hm & Hmk & _).
  destruct (marks_not_calls _ Hmk) as (Hm1 & Hm2 & Hm3 & _).
  destruct (is_ok rc) eqn:Erc.
  - destruct rc as [groups| |]; try discriminate.
    destruct (run_after_classify pm w groups w1 Hc)
      as (tr_ool & tr_upd & Ht & Hr & Hrun & Hok & Hfail).
    simpl in Ht, Hr, Hrun, Hok, Hfail.
    destruct (alloc_run_events _ _ _ Hr) as (Ha1 & Ha2 & Ha3).
    exists (marks ++ tr_ool ++ tr_upd).
    split; [rewrite Hrun, Hm, <- app_assoc; reflexivity|].
    rewrite !existsb_app, Hm1, Hm2, Hm3, Ha1, Ha2, Ha3. simpl.
    destruct (is_ok (fst (do_for_each (fst groups) call_alloc w1))) eqn:Eok.
    + specialize (Hok eq_refl).
      destruct (inline_run_events _ _ _ _ Hok) as (Hi1 & Hi2 & _).
      rewrite Hi1, Hi2. simpl.
      split; [now intros ->|].
      split; [now destruct (fst (delayed_alloc_or_ool_write pm w))|].
      discriminate.
    + destruct (Hfail eq_refl) as [-> Hres]. simpl.
      split; [intros E; rewrite E in Hres; discriminate|].
      split; [intros _; exact Hres | reflexivity].
  - destruct (run_classify_fails pm w rc w1 Hc Erc) as (Hw & Hres).
    exists marks. rewrite Hw. split; [exact Hm|].
    rewrite Hm1, Hm2.
    split; [reflexivity|]. split; discriminate.
Qed.

(** ** C7 (amended)

    The writer and the allocator are chosen without looking at the hint:
    for any two hints the same call selects the same member of the pool,
    and with a pool that is not empty the call returns one of its
    members. *)
Theorem selection_ignores_the_hint
    (a : SegmentedAllocator.t) (pm : ExtentPlacementManager)
    (type : device_type_t) (h1 h2 : ool_placement_hint_t) (w : world) :
  let pool := SegmentedAllocator.writers a in
  let devices := allocators pm type in
  get_writer a h1 w = get_writer a h2 w
  /\ get_allocator pm type h1 w = get_allocator pm type h2 w
  /\ (pool <> [] ->
      exists i, fst (get_writer a h1 w) = Ok i
                /\ (i < N.of_nat (length pool))%N)
  /\ (devices <> [] ->
      exists x, fst (get_allocator pm type h1 w) = Ok x /\ In x devices).
Proof.
  intros pool devices.
  split; [reflexivity|]. split; [reflexivity|]. split.
  - intros Hne. unfold get_writer, bind, std_rand. simpl. fold pool.
    destruct pool as [|x tl] eqn:E; [contradiction|].
    eexists. split; [reflexivity|]. apply N.mod_lt. simpl length. lia.
  - intros Hne. unfold get_allocator, bind, std_rand. simpl. fold devices.
    destruct devices as [|x tl] eqn:E; [contradiction|].
    eexists. split; [reflexivity|]. apply nth_In.
    set (r := rand_out (st_rand (w_state w))).
    assert (Hlt : (r mod N.of_nat (length (x :: tl)) < N.of_nat (length (x :: tl)))%N)
      by (apply N.mod_lt; simpl length; lia).
    lia.
Qed.

(** ** C8 (amended)

    [alloc_ool_extents_paddr] puts every extent of its batch in the group
    of one writer, a writer has one group, and the groups are written one
    after the other in key order: the write of a group starts once the
    write of the group before it has resolved successfully, and no further
    group is written after a failure.  [delayed_alloc_or_ool_write] hands
    the groups of its allocation map to their allocators in the same way.
    Either call resolves successfully only after every group was handed
    over and resolved successfully. *)
Theorem groups_are_written_one_after_the_other
    (a : SegmentedAllocator.t) (extents : list LogicalCachedExtentRef)
    (pm : ExtentPlacementManager) (w : world) :
  (forall groups w1,
     group_by_writer a extents [] w = (Ok groups, w1) ->
     Permutation (map_values groups) extents
     /\ NoDup (map fst groups)
     /\ exists tr,
          w_trace (snd (alloc_ool_extents_paddr a extents w)) = w_trace w ++ tr
          /\ sequential_run EvWriteStart EvWriteDone groups tr
               (fst (alloc_ool_extents_paddr a extents w))
          /\ (fst (alloc_ool_extents_paddr a extents w) = Ok tt ->
              tr = flat_map (fun p => [EvWriteStart (fst p) (snd p);
                                       EvWriteDone (fst p) (Ok tt)]) groups))
  /\ (forall groups w1,
        classify pm (delayed_alloc_list (st_trans (w_state w))) [] [] w
        = (Ok groups, w1) ->
        NoDup (map fst (fst groups))
        /\ exists tr_ool tr_upd r_ool,
             w_trace (snd (delayed_alloc_or_ool_write pm w))
             = w_trace w1 ++ tr_ool ++ tr_upd
             /\ forallb is_update tr_upd = true
             /\ sequential_run EvAllocStart EvAllocDone (fst groups) tr_ool r_ool
             /\ (fst (delayed_alloc_or_ool_write pm w) = Ok tt ->
                 tr_ool = flat_map (fun p => [EvAllocStart (fst p) (snd p);
                                              EvAllocDone (fst p) (Ok tt)])
                                   (fst groups))).
Proof.
  split.
  - intros groups w1 Hg.
    destruct (group_by_writer_spec _ _ _ _ _ _ Hg) as (Ht & Hp & Hs).
    split; [exact Hp|].
    split; [apply sorted_keys_nodup, Hs; constructor|].
    destruct (do_for_each_calls Writer_write EvWriteStart EvWriteDone groups w1)
      as (tr & Htr & Hr).
    fold call_write in Htr, Hr.
    assert (Erun : alloc_ool_extents_paddr a extents w
                   = do_for_each groups call_write w1).
    { unfold alloc_ool_extents_paddr, bind. rewrite Hg. reflexivity. }
    rewrite Erun. exists tr. split; [now rewrite Htr, Ht|].
    split; [exact Hr|]. intros Eok. rewrite Eok in Hr.
    exact (sequential_run_ok _ _ _ _ _ Hr).
  - intros groups w1 Hc. split.
    + destruct groups as [am il].
      apply sorted_keys_nodup, (classify_sorted _ _ _ _ _ _ _ _ Hc). constructor.
    + destruct (run_after_classify pm w groups w1 Hc)
        as (tr_ool & tr_upd & Ht & Hr & Hrun & Hok & Hfail).
      simpl in Ht, Hr, Hrun, Hok, Hfail.
      exists tr_ool, tr_upd, (fst (do_for_each (fst groups) call_alloc w1)).
      split; [exact Hrun|]. split.
      { destruct (is_ok (fst (do_for_each (fst groups) call_alloc w1))).
        - now destruct (inline_run_events _ _ _ _ (Hok eq_refl)) as (_ & _ & Hu).
        - now destruct (Hfail eq_refl) as [-> _]. }
      split; [exact Hr|].
      intros Eok. revert Hr Hfail.
      destruct (fst (do_for_each (fst groups) call_alloc w1)) as [[]| |];
        intros Hr Hfail.
      * exact (sequential_run_ok _ _ _ _ _ Hr).
      * destruct (Hfail eq_refl) as [_ Hres]. rewrite Eok in Hres. discriminate.
      * destruct (Hfail eq_refl) as [_ Hres]. rewrite Eok in Hres. discriminate.
Qed.

(** One request goes to the cache, and the placement is recorded on the
    extent the cache returns. *)
Lemma alloc_new_extent_by_type_run
    (type : extent_types_t) (length : Z) (h : ool_placement_hint_t) (w : world) :
  is_logical_type type = true ->
  exists w',
    alloc_new_extent_by_type type length h w
    = (Ok (fst (Cache_alloc_new_extent_by_type type length
                  (need_delayed_allocation (get_allocator_type h)) (w_state w))),
       w')
    /\ w_trace w'
       = w_trace w ++ [EvCacheAllocByType type length
                         (need_delayed_allocation (get_allocator_type h))]
    /\ backend_type
         (st_store (w_state w')
            (fst (Cache_alloc_new_extent_by_type type length
                    (need_delayed_allocation (get_allocator_type h)) (w_state w))))
       = get_allocator_type h
    /\ hint
         (st_store (w_state w')
            (fst (Cache_alloc_new_extent_by_type type length
                    (need_delayed_allocation (get_allocator_type h)) (w_state w))))
       = h.
Proof.
  intros Hl. unfold alloc_new_extent_by_type. rewrite Hl. cbv zeta.
  change (negb true) with false. cbv iota.
  destruct (need_delayed_allocation (get_allocator_type h)); cbv iota;
    unfold bind, call_cache, record_placement, ret; cbv beta;
    destruct (Cache_alloc_new_extent_by_type type length _ (w_state w))
      as [e s'];
    simpl; eexists; (split; [reflexivity|]); simpl;
    unfold update_extent; rewrite Nat.eqb_refl; auto.
Qed.

Lemma alloc_new_extent_run
    (T : extent_types_t) (length : Z) (h : ool_placement_hint_t) (w : world) :
  exists w',
    alloc_new_extent T length h w
    = (Ok (fst (Cache_alloc_new_extent T length
                  (need_delayed_allocation (get_allocator_type h)) (w_state w))),
       w')
    /\ w_trace w'
       = w_trace w ++ [EvCacheAlloc T length
                         (need_delayed_allocation (get_allocator_type h))]
    /\ backend_type
         (st_store (w_state w')
            (fst (Cache_alloc_new_extent T length
                    (need_delayed_allocation (get_allocator_type h)) (w_state w))))
       = get_allocator_type h
    /\ hint
         (st_store (w_state w')
            (fst (Cache_alloc_new_extent T length
                    (need_delayed_allocation (get_allocator_type h)) (w_state w))))
       = h.
Proof.
  unfold alloc_new_extent. cbv zeta.
  destruct (need_delayed_allocation (get_allocator_type h)); cbv iota;
    unfold bind, call_cache, record_placement, ret; cbv beta;
    destruct (Cache_alloc_new_extent T length _ (w_state w)) as [e s'];
    simpl; eexists; (split; [reflexivity|]); simpl;
    unfold update_extent; rewrite Nat.eqb_refl; auto.
Qed.

(** ** C9

    [alloc_new_extent_by_type] (for a logical type) and [alloc_new_extent]
    make one request to the cache, for the given type and length, asking for
    a temporary address exactly when the device family resolved from the
    hint needs delayed allocation; the extent returned is the one the cache
    created, with the resolved family and the hint recorded on it. *)
Theorem new_extent_records_placement
    (type : extent_types_t) (length : Z) (h : ool_placement_hint_t) (w : world) :
  let dtype := get_allocator_type h in
  let delayed := need_delayed_allocation dtype in
  (is_logical_type type = true ->
   exists w',
     let e := fst (Cache_alloc_new_extent_by_type type length delayed (w_state w)) in
     alloc_new_extent_by_type type length h w = (Ok e, w')
     /\ w_trace w' = w_trace w ++ [EvCacheAllocByType type length delayed]
     /\ backend_type (st_store (w_state w') e) = dtype
     /\ hint (st_store (w_state w') e) = h)
  /\ (exists w',
        let e := fst (Cache_alloc_new_extent type length delayed (w_state w)) in
        alloc_new_extent type length h w = (Ok e, w')
        /\ w_trace w' = w_trace w ++ [EvCacheAlloc type length delayed]
        /\ backend_type (st_store (w_state w') e) = dtype
        /\ hint (st_store (w_state w') e) = h).
Proof.
  intros dtype delayed. split.
  - intros Hl. exact (alloc_new_extent_by_type_run type length h w Hl).
  - exact (alloc_new_extent_run type length h w).
Qed.

(** ** C10

    [get_allocator_type] is [SEGMENTED] for every hint; an extent allocated
    through the placement manager gets the family [SEGMENTED] whatever its
    hint, and the request made to the cache, with its choice between a
    temporary and a final address, is the same for every hint. *)
Theorem every_hint_resolves_to_segmented
    (type : extent_types_t) (length : Z) (h : ool_placement_hint_t) (w : world) :
  let delayed := need_delayed_allocation SEGMENTED in
  get_allocator_type h = SEGMENTED
  /\ (exists w',
        let e := fst (Cache_alloc_new_extent type length delayed (w_state w)) in
        alloc_new_extent type length h w = (Ok e, w')
        /\ w_trace w' = w_trace w ++ [EvCacheAlloc type length delayed]
        /\ backend_type (st_store (w_state w') e) = SEGMENTED)
  /\ (is_logical_type type = true ->
      exists w',
        let e := fst (Cache_alloc_new_extent_by_type type length delayed
                        (w_state w)) in
        alloc_new_extent_by_type type length h w = (Ok e, w')
        /\ w_trace w' = w_trace w ++ [EvCacheAllocByType type length delayed]
        /\ backend_type (st_store (w_state w') e) = SEGMENTED).
Proof.
  intros delayed. split; [reflexivity|]. split.
  - destruct (alloc_new_extent_run type length h w) as (w' & E & Ht & Hb & _).
    exists w'. auto.
  - intros Hl.
    destruct (alloc_new_extent_by_type_run type length h w Hl)
      as (w' & E & Ht & Hb & _).
    exists w'. auto.
Qed.

(** ** Further properties of the allocator and the placement manager *)

Lemma group_of_absent {V} (k : N) (m : list (N * list V)) :
  Forall (fun k' => (k < k')%N) (map fst m) -> group_of k m = [].
Proof.
  induction m as [|[k' vs] tl IH]; simpl; intros H; [reflexivity|].
  inversion H as [|? ? Hk Htl]; subst.
  destruct (N.eqb_spec k k'); [lia | now apply IH].
Qed.

Lemma group_of_emplace {V} (k k' : N) (v : V) m :
  Sorted N.lt (map fst m) ->
  group_of k' (map_emplace_back k v m)
  = if (k' =? k)%N then group_of k m ++ [v] else group_of k' m.
Proof.
  induction m as [|[k2 vs] tl IH]; simpl; intros Hs.
  - now destruct (k' =? k)%N.
  - assert (Hss : StronglySorted N.lt (k2 :: map fst tl))
      by (apply Sorted_StronglySorted; [intros x y z; apply N.lt_trans | exact Hs]).
    inversion Hss as [|? ? _ Hall]; subst.
    inversion Hs as [|? ? Htl _]; subst.
    destruct (N.eqb_spec k k2) as [->|Hne]; simpl.
    + now destruct (k' =? k2)%N.
    + destruct (N.ltb_spec k k2) as [Hlt|Hge]; simpl.
      * destruct (N.eqb_spec k' k) as [->|Hk']; [|reflexivity].
        rewrite group_of_absent; [reflexivity|].
        eapply Forall_impl; [|exact Hall]. simpl. intros; lia.
      * rewrite (IH Htl).
        destruct (N.eqb_spec k' k2) as [->|Hk2]; [|reflexivity].
        destruct (N.eqb_spec k2 k); [lia | reflexivity].
Qed.

Lemma in_group_of {V} (k : N) (es : list V) m :
  NoDup (map fst m) -> In (k, es) m -> group_of k m = es.
Proof.
  induction m as [|[k' vs] tl IH]; simpl; intros Hnd Hin; [destruct Hin|].
  inversion Hnd as [|? ? Hk Htl]; subst.
  destruct Hin as [E|Hin].
  - injection E as -> ->. now rewrite N.eqb_refl.
  - destruct (N.eqb_spec k k') as [->|Hne]; [|now apply IH].
    exfalso. apply Hk. apply in_map_iff. exists (k', es). auto.
Qed.

Lemma subseq_nil_l {A} (l : list A) : subseq [] l.
Proof. induction l; constructor; assumption. Qed.

Lemma subseq_In {A} (s l : list A) x : subseq s l -> In x s -> In x l.
Proof.
  induction 1 as [|y s l _ IH|y s l _ IH]; simpl; intros Hin; auto.
  destruct Hin; auto.
Qed.

(** What the loop over the delayed-allocation list adds to a group and to
    the inline list: extents of the list, in the order of the list; an
    extent is added to the group of an allocator registered for its
    family. *)
Lemma classify_groups pm l : forall am il (w : world) am' il' w',
  Sorted N.lt (map fst am) ->
  classify pm l am il w = (Ok (am', il'), w') ->
  (forall k, exists s,
      subseq s l /\ group_of k am' = group_of k am ++ s
      /\ forall e, In e s ->
           In k (allocators pm (backend_type (st_store (w_state w) e))))
  /\ exists s, subseq s l /\ map snd il' = map snd il ++ s.
Proof.
  induction l as [|x tl IH]; intros am il w am' il' w' Hs H.
  - simpl in H. injection H as <- <- <-. split.
    + intros k. exists []. rewrite app_nil_r.
      repeat split; [constructor | intros ? []].
    + exists []. rewrite app_nil_r. split; [constructor | reflexivity].
  - classify_cases H pm w x.
    + destruct (IH _ _ _ _ _ _ Hs H) as (Hg & s & Hsub & Hil). simpl in Hg.
      split.
      * intros k. destruct (Hg k) as (sk & Hk1 & Hk2 & Hk3).
        exists sk. split; [now constructor|]. split; [exact Hk2|].
        intros e He. specialize (Hk3 e He).
        destruct (same_but_paddr_update (st_store (w_state w)) x
                    (final_inline_paddr (st_trans (w_state w))
                                        (st_store (w_state w) x)) e)
          as (_ & Hb & _).
        now rewrite Hb in Hk3.
      * exists (x :: s). split; [now constructor|].
        rewrite Hil, map_app, <- app_assoc. reflexivity.
    + discriminate.
    + match type of H with
      | classify pm tl (map_emplace_back ?a _ _) _ _ = _ =>
          set (picked := a) in *;
          assert (Hin : In picked
                           (allocators pm
                              (backend_type (st_store (w_state w) x))))
      end.
      { rewrite Ea. apply nth_In.
        match goal with |- (N.to_nat (?r mod ?n)%N < _)%nat =>
          assert (Hlt : (r mod n < n)%N) by (apply N.mod_lt; simpl length; lia)
        end.
        lia. }
      assert (Hs' : Sorted N.lt (map fst (map_emplace_back picked x am)))
        by now apply map_emplace_back_sorted.
      destruct (IH _ _ _ _ _ _ Hs' H) as (Hg & s & Hsub & Hil). simpl in Hg.
      split; [|exists s; split; [now constructor | exact Hil]].
      intros k. destruct (Hg k) as (sk & Hk1 & Hk2 & Hk3).
      rewrite (group_of_emplace _ _ _ _ Hs) in Hk2.
      destruct (N.eqb_spec k picked) as [Hk|Hk].
      * exists (x :: sk). split; [now constructor|]. split.
        -- rewrite Hk2, <- app_assoc, Hk. reflexivity.
        -- intros y [<-|Hy]; [|now apply Hk3]. now rewrite Hk.
      * exists sk. split; [now constructor|]. split; assumption.
    + destruct (IH _ _ _ _ _ _ Hs H) as (Hg & s & Hsub & Hil). simpl in Hg.
      split; [|exists s; split; [now constructor | exact Hil]].
      intros k. destruct (Hg k) as (sk & Hk1 & Hk2 & Hk3).
      exists sk. split; [now constructor|]. split; assumption.
Qed.

Lemma map_emplace_back_keys {V} (k k' : N) (v : V) m :
  In k' (map fst (map_emplace_back k v m)) -> k' = k \/ In k' (map fst m).
Proof.
  induction m as [|[k2 vs] tl IH]; simpl.
  - intros [H|[]]; auto.
  - destruct (N.eqb_spec k k2) as [->|Hne]; [|destruct (k <? k2)%N]; simpl.
    + auto.
    + intros [H|[H|H]]; auto.
    + intros [H|H]; auto. destruct (IH H); auto.
Qed.

(** What the first loop of [alloc_ool_extents_paddr] adds to a group:
    extents of the batch, in the order of the batch, under the position of
    a writer of the pool; it draws one value of [rand()] for each extent
    and changes nothing else. *)
Lemma group_by_writer_groups a l : forall am (w : world) am' w',
  Sorted N.lt (map fst am) ->
  group_by_writer a l am w = (Ok am', w') ->
  (forall k, exists s, subseq s l /\ group_of k am' = group_of k am ++ s)
  /\ (forall k, In k (map fst am') ->
        In k (map fst am)
        \/ (k < N.of_nat (length (SegmentedAllocator.writers a)))%N)
  /\ st_rand (w_state w') = (st_rand (w_state w) + length l)%nat
  /\ st_store (w_state w') = st_store (w_state w)
  /\ st_trans (w_state w') = st_trans (w_state w)
  /\ st_env (w_state w') = st_env (w_state w).
Proof.
  induction l as [|x tl IH]; intros am w am' w' Hs H.
  - simpl in H. injection H as <- <-. split; [|split; [auto|]].
    + intros k. exists []. rewrite app_nil_r. split; [constructor|reflexivity].
    + simpl. rewrite Nat.add_0_r. auto.
  - simpl in H. unfold bind at 1, get_store at 1 in H. simpl in H.
    unfold bind at 1, get_writer at 1, bind at 1, std_rand at 1 in H.
    simpl in H. destruct (SegmentedAllocator.writers a) eqn:Ew; [discriminate|].
    unfold ret at 1 in H.
    match type of H with
    | group_by_writer a tl (map_emplace_back ?k _ _) _ = _ =>
        set (picked := k) in *;
        assert (Hlt : (picked < N.of_nat (length (SegmentedAllocator.writers a)))%N)
          by (rewrite Ew; apply N.mod_lt; simpl length; lia)
    end.
    destruct (IH _ _ _ _ (map_emplace_back_sorted picked x am Hs) H)
      as (Hg & Hk & Hr & Hst & Ht & He).
    simpl in Hr, Hst, Ht, He. split; [|split].
    + intros k. destruct (Hg k) as (s & Hsub & Hgk).
      rewrite (group_of_emplace _ _ _ _ Hs) in Hgk.
      destruct (N.eqb_spec k picked) as [->|Hne].
      * exists (x :: s). split; [now constructor|].
        rewrite Hgk, <- app_assoc. reflexivity.
      * exists s. split; [now constructor | exact Hgk].
    + intros k Hin. destruct (Hk k Hin) as [Hin'|Hin']; [|now right].
      destruct (map_emplace_back_keys _ _ _ _ Hin') as [->|]; auto.
      right. now rewrite Ew in Hlt.
    + rewrite Hr. simpl. repeat split; auto.
Qed.

Lemma get_allocator_member (pm : ExtentPlacementManager) type h (w : world) :
  allocators pm type <> [] ->
  exists x, fst (get_allocator pm type h w) = Ok x /\ In x (allocators pm type).
Proof.
  intros Hne. unfold get_allocator, bind, std_rand. simpl.
  destruct (allocators pm type) as [|y tl] eqn:Ep; [contradiction|].
  eexists. split; [reflexivity|]. apply nth_In.
  match goal with |- (N.to_nat (?r mod ?n)%N < _)%nat =>
    assert (Hlt : (r mod n < n)%N) by (apply N.mod_lt; simpl length; lia)
  end.
  lia.
Qed.

Lemma device_type_eqb_eq d1 d2 : device_type_eqb d1 d2 = true <-> d1 = d2.
Proof. destruct d1, d2; simpl; split; intros H; congruence. Qed.

(** ** X8

    [add_allocator] appends the allocator to the vector of its family and
    leaves the other families as they are; from then on [get_allocator]
    for that family returns one of its registered allocators, for every
    hint and whatever [rand()] yields, and the first allocator registered
    for a family is the one it returns while it is the only one. *)
Theorem registered_allocator_is_selected
    (pm : ExtentPlacementManager) (type : device_type_t)
    (allocator : ExtentAllocatorRef) (h : ool_placement_hint_t) (w : world) :
  let pm' := add_allocator pm type allocator in
  allocators pm' type = allocators pm type ++ [allocator]
  /\ (forall d, d <> type -> allocators pm' d = allocators pm d)
  /\ (exists x, fst (get_allocator pm' type h w) = Ok x
                /\ In x (allocators pm type ++ [allocator]))
  /\ (allocators pm type = [] ->
      fst (get_allocator pm' type h w) = Ok allocator).
Proof.
  intros pm'.
  assert (E : allocators pm' type = allocators pm type ++ [allocator]).
  { simpl. now rewrite (proj2 (device_type_eqb_eq type type) eq_refl). }
  split; [exact E|]. split.
  { intros d Hd. simpl. destruct (device_type_eqb d type) eqn:Ed; [|reflexivity].
    apply device_type_eqb_eq in Ed. contradiction. }
  assert (Hsel : exists x, fst (get_allocator pm' type h w) = Ok x
                           /\ In x (allocators pm' type)).
  { apply get_allocator_member. rewrite E. now destruct (allocators pm type). }
  split.
  - destruct Hsel as (x & Hx & Hin). exists x. now rewrite <- E.
  - intros Hnone. destruct Hsel as (x & Hx & Hin). rewrite Hx.
    rewrite E, Hnone in Hin. destruct Hin as [->|[]]. reflexivity.
Qed.

(** ** X9

    A pool of one leaves no choice: with a single writer [get_writer]
    returns it, and with a single allocator registered for a family
    [get_allocator] returns it, for every hint and every value [rand()]
    yields. *)
Theorem single_member_is_always_selected
    (a : SegmentedAllocator.t) (pm : ExtentPlacementManager)
    (type : device_type_t) (h : ool_placement_hint_t) (w : world) :
  (forall x, SegmentedAllocator.writers a = [x] ->
             fst (get_writer a h w) = Ok 0%N)
  /\ (forall x, allocators pm type = [x] ->
                fst (get_allocator pm type h w) = Ok x).
Proof.
  split; intros x Hx.
  - unfold get_writer, bind, std_rand. simpl. rewrite Hx. simpl.
    now rewrite N.mod_1_r.
  - unfold get_allocator, bind, std_rand. simpl. rewrite Hx. simpl.
    now rewrite N.mod_1_r.
Qed.

(** ** X10

    The loop of [delayed_alloc_or_ool_write] hands an extent only to an
    allocator that is registered for the extent's own backend type: every
    extent of every group of the allocation map has the key of its group
    among the allocators of its family. *)
Theorem extents_go_to_allocators_of_their_family
    (pm : ExtentPlacementManager) (w : world) am il w1 :
  classify pm (delayed_alloc_list (st_trans (w_state w))) [] [] w
  = (Ok (am, il), w1) ->
  forall k es e,
    In (k, es) am -> In e es ->
    In k (allocators pm (backend_type (st_store (w_state w) e)))
    /\ In e (delayed_alloc_list (st_trans (w_state w))).
Proof.
  intros Hc k es e Hk He.
  pose proof (classify_sorted _ _ _ _ _ _ _ _ Hc (Sorted_nil _)) as Hs.
  destruct (classify_groups pm _ [] [] w am il w1 (Sorted_nil _) Hc) as (Hg & _).
  destruct (Hg k) as (s & Hsub & Hgk & Hreg). simpl in Hgk.
  rewrite (in_group_of _ _ _ (sorted_keys_nodup _ Hs) Hk) in Hgk. subst s.
  split; [now apply Hreg | exact (subseq_In _ _ _ Hsub He)].
Qed.

(** ** X11

    The loop of [delayed_alloc_or_ool_write] keeps the order of the
    delayed-allocation list: the extents of each group of the allocation
    map, and the extents of the inline list, come in the order in which
    the list has them. *)
Theorem groups_keep_the_order_of_the_list
    (pm : ExtentPlacementManager) (w : world) am il w1 :
  classify pm (delayed_alloc_list (st_trans (w_state w))) [] [] w
  = (Ok (am, il), w1) ->
  (forall k es, In (k, es) am ->
                subseq es (delayed_alloc_list (st_trans (w_state w))))
  /\ subseq (map snd il) (delayed_alloc_list (st_trans (w_state w))).
Proof.
  intros Hc.
  pose proof (classify_sorted _ _ _ _ _ _ _ _ Hc (Sorted_nil _)) as Hs.
  destruct (classify_groups pm _ [] [] w am il w1 (Sorted_nil _) Hc)
    as (Hg & s & Hsub & Hil).
  split.
  - intros k es Hk. destruct (Hg k) as (sk & Hsk & Hgk & _). simpl in Hgk.
    rewrite (in_group_of _ _ _ (sorted_keys_nodup _ Hs) Hk) in Hgk. now subst.
  - simpl in Hil. now rewrite Hil.
Qed.

(** ** X12

    [alloc_ool_extents_paddr] groups its batch without changing it: every
    group is filed under the position of a writer of the pool, no writer
    has two groups, the extents of a group come in the order of the batch,
    and the grouping draws one value of [rand()] for each extent and
    touches neither the extents nor the transaction. *)
Theorem writer_groups_follow_the_batch
    (a : SegmentedAllocator.t) (extents : list LogicalCachedExtentRef)
    (w : world) groups w1 :
  group_by_writer a extents [] w = (Ok groups, w1) ->
  NoDup (map fst groups)
  /\ (forall k es, In (k, es) groups ->
        (k < N.of_nat (length (SegmentedAllocator.writers a)))%N
        /\ subseq es extents)
  /\ st_rand (w_state w1) = (st_rand (w_state w) + length extents)%nat
  /\ st_store (w_state w1) = st_store (w_state w)
  /\ st_trans (w_state w1) = st_trans (w_state w)
  /\ w_trace w1 = w_trace w.
Proof.
  intros Hg.
  destruct (group_by_writer_spec _ _ _ _ _ _ Hg) as (Ht & _ & Hs).
  specialize (Hs (Sorted_nil _)).
  destruct (group_by_writer_groups a extents [] w groups w1 (Sorted_nil _) Hg)
    as (Hgroups & Hkeys & Hr & Hst & Htr & _).
  split; [now apply sorted_keys_nodup|]. split; [|auto].
  intros k es Hk. split.
  - destruct (Hkeys k) as [[]|Hlt]; [|exact Hlt].
    apply in_map_iff. exists (k, es). auto.
  - destruct (Hgroups k) as (s & Hsub & Hgk). simpl in Hgk.
    rewrite (in_group_of _ _ _ (sorted_keys_nodup _ Hs) Hk) in Hgk. now subst.
Qed.

(** The loop of [delayed_alloc_or_ool_write] over extents that are all
    invalid only counts them. *)
Lemma classify_invalid_only pm l : forall am il (w : world),
  (forall e, In e l -> ext_valid (st_store (w_state w) e) = false) ->
  exists w',
    classify pm l am il w = (Ok (am, il), w')
    /\ w_trace w' = w_trace w
    /\ st_store (w_state w') = st_store (w_state w)
    /\ st_rand (w_state w') = st_rand (w_state w)
    /\ st_env (w_state w') = st_env (w_state w)
    /\ delayed_alloc_list (st_trans (w_state w'))
       = delayed_alloc_list (st_trans (w_state w))
    /\ inline_block_list (st_trans (w_state w'))
       = inline_block_list (st_trans (w_state w))
    /\ num_delayed_invalid_extents (st_trans (w_state w'))
       = (num_delayed_invalid_extents (st_trans (w_state w))
          + N.of_nat (length l))%N.
Proof.
  induction l as [|x tl IH]; intros am il w Hinv.
  - exists w. simpl. rewrite N.add_0_r. repeat split; reflexivity.
  - destruct (classify pm (x :: tl) am il w) as [r w'] eqn:H.
    pose proof (Hinv x (or_introl eq_refl)) as Hx.
    classify_cases H pm w x; try (rewrite Hx in *; discriminate).
    match type of H with classify pm tl am il ?w1 = _ =>
      destruct (IH am il w1) as (w2 & Hc & Ht & Hst & Hr & He & Hd & Hi & Hn);
        [intros e' He'; simpl; apply Hinv; now right|]
    end.
    rewrite Hc in H. injection H as <- <-. simpl in *.
    exists w2. repeat split; try assumption.
    rewrite Hn. lia.
Qed.

Lemma alloc_run_shape l tr r :
  sequential_run EvAllocStart EvAllocDone l tr r ->
  marks_of tr = [] /\ filter is_update tr = [].
Proof.
  induction 1 as [|k es tl tr r H [IH1 IH2]|k es tl r Hr]; simpl; auto.
Qed.

Lemma inline_run_shape st l tr u :
  inline_run st l tr (Ok u) ->
  marks_of tr = [] /\ started tr = [] /\ filter is_update tr = tr
  /\ length tr = length l.
Proof.
  intros H. remember (Ok u) as r eqn:Er.
  induction H as [|old e tl tr r H IH|old e tl r Hr]; subst; simpl.
  - auto.
  - destruct (IH eq_refl) as (H1 & H2 & H3 & H4). rewrite H3, H4. auto.
  - discriminate.
Qed.

Lemma marks_shape tr :
  forallb is_mark tr = true -> filter is_update tr = [].
Proof.
  induction tr as [|ev tl IH]; simpl; [auto|].
  destruct ev; simpl; try discriminate. exact IH.
Qed.

(** ** X13

    When every extent of the delayed-allocation list is invalid,
    [delayed_alloc_or_ool_write] succeeds without calling any allocator or
    [update_mapping] and without drawing from [rand()], whether or not an
    allocator is registered: it leaves the extents, the list and the
    inline block list as they are and adds the length of the list to the
    counter of invalid extents. *)
Theorem invalid_extents_need_no_allocator
    (pm : ExtentPlacementManager) (w : world) :
  (forall e, In e (delayed_alloc_list (st_trans (w_state w))) ->
             ext_valid (st_store (w_state w) e) = false) ->
  exists w',
    delayed_alloc_or_ool_write pm w = (Ok tt, w')
    /\ w_trace w' = w_trace w
    /\ st_store (w_state w') = st_store (w_state w)
    /\ st_rand (w_state w') = st_rand (w_state w)
    /\ st_env (w_state w') = st_env (w_state w)
    /\ delayed_alloc_list (st_trans (w_state w'))
       = delayed_alloc_list (st_trans (w_state w))
    /\ inline_block_list (st_trans (w_state w'))
       = inline_block_list (st_trans (w_state w))
    /\ num_delayed_invalid_extents (st_trans (w_state w'))
       = (num_delayed_invalid_extents (st_trans (w_state w))
          + N.of_nat (length (delayed_alloc_list (st_trans (w_state w)))))%N.
Proof.
  intros Hinv.
  destruct (classify_invalid_only pm _ [] [] w Hinv) as (w' & Hc & Hrest).
  exists w'. split; [|exact Hrest].
  unfold delayed_alloc_or_ool_write, bind, get_trans. simpl.
  rewrite Hc. reflexivity.
Qed.

(** ** X14

    A successful [delayed_alloc_or_ool_write] has dealt with every valid
    extent of the delayed-allocation list exactly once: the extents marked
    inline together with the extents of the allocator calls that were
    started are the valid listed extents, no allocator was called twice,
    one [update_mapping] was issued for each extent marked inline, and no
    call was observed to fail. *)
Theorem successful_resolution_covers_the_valid_extents
    (pm : ExtentPlacementManager) (w : world) :
  fst (delayed_alloc_or_ool_write pm w) = Ok tt ->
  exists tr,
    w_trace (snd (delayed_alloc_or_ool_write pm w)) = w_trace w ++ tr
    /\ Permutation (map snd (marks_of tr) ++ map_values (started tr))
                   (valid_in (st_store (w_state w))
                             (delayed_alloc_list (st_trans (w_state w))))
    /\ NoDup (map fst (started tr))
    /\ length (filter is_update tr) = length (marks_of tr)
    /\ existsb failed_call tr = false.
Proof.
  intros Hok.
  destruct (classify pm (delayed_alloc_list (st_trans (w_state w))) [] [] w)
    as [r w1] eqn:Hc.
  assert (Hr : exists am il, r = Ok (am, il)).
  { destruct r as [[am il]|e|]; [eauto| |];
      destruct (run_classify_fails pm w _ w1 Hc eq_refl) as [_ Hf];
      rewrite Hok in Hf; discriminate. }
  destruct Hr as (am & il & ->).
  destruct (run_after_classify pm w (am, il) w1 Hc)
    as (tr_ool & tr_upd & Ht & Hrun & Htr & Hgo & Hfail).
  simpl in Ht, Hrun, Htr, Hgo, Hfail.
  destruct (classify_frame _ _ _ _ _ _ _ Hc) as (_ & _ & tr_m & Hm & Hmk & Hil).
  specialize (Hil am il eq_refl). simpl in Hil.
  destruct (classify_placement _ _ _ _ _ _ _ _ Hc) as (_ & Hperm).
  simpl in Hperm.
  pose proof (classify_sorted _ _ _ _ _ _ _ _ Hc (Sorted_nil _)) as Hs.
  destruct (fst (do_for_each am call_alloc w1)) as [[]|e|] eqn:Eool;
    [|destruct (Hfail eq_refl) as [_ Hf]; rewrite Hok in Hf; discriminate..].
  specialize (Hgo eq_refl). rewrite Hok in Hgo.
  destruct (sequential_run_started EvAllocStart EvAllocDone _ _ _
              (fun _ _ => eq_refl) (fun _ _ => eq_refl) Hrun)
    as (rest & Ham & Hrest).
  rewrite (Hrest eq_refl), app_nil_r in Ham.
  destruct (alloc_run_shape _ _ _ Hrun) as (Hom & Hou).
  destruct (alloc_run_events _ _ _ Hrun) as (_ & Hof & _).
  destruct (inline_run_shape _ _ _ _ Hgo) as (Hum & Hus & Huu & Hul).
  destruct (inline_run_events _ _ _ _ Hgo) as (_ & Huf & _).
  destruct (marks_not_calls _ Hmk) as (Hmf & _ & _ & Hms).
  exists (tr_m ++ tr_ool ++ tr_upd).
  assert (Emarks : marks_of (tr_m ++ tr_ool ++ tr_upd) = il).
  { unfold marks_of in *. rewrite !flat_map_app, Hom, Hum, !app_nil_r.
    now rewrite Hil. }
  assert (Estarted : started (tr_m ++ tr_ool ++ tr_upd) = am).
  { unfold started in *. rewrite !flat_map_app, Hms, Hus, app_nil_r. simpl.
    now rewrite Ham. }
  split; [rewrite Htr, Hm, <- app_assoc; reflexivity|].
  rewrite Emarks, Estarted.
  split; [exact Hperm|]. split; [now apply sorted_keys_nodup|]. split.
  - rewrite !filter_app, (marks_shape _ Hmk), Hou, Huu. simpl.
    exact Hul.
  - rewrite !existsb_app, Hmf, Hof, Huf. reflexivity.
Qed.

(** ** X15

    [alloc_new_extent_by_type] asserts that the type is logical: for
    another type it ends on the failed assertion before the cache is asked
    for anything.  Otherwise the placement manager changes nothing but the
    family and the hint of the extent the cache has created: the other
    extents, the other fields of the new extent (its addresses among them)
    and the transaction are as the cache left them. *)
Theorem new_extent_changes_the_placement_only
    (type : extent_types_t) (length : Z) (h : ool_placement_hint_t) (w : world) :
  let delayed := need_delayed_allocation (get_allocator_type h) in
  (is_logical_type type = false ->
   alloc_new_extent_by_type type length h w = (Aborted, w))
  /\ (is_logical_type type = true ->
      let c := Cache_alloc_new_extent_by_type type length delayed (w_state w) in
      let s' := w_state (snd (alloc_new_extent_by_type type length h w)) in
      placed (st_store (snd c)) (st_store s') (fst c)
      /\ st_trans s' = st_trans (snd c)
      /\ st_rand s' = st_rand (snd c)
      /\ st_env s' = st_env (snd c))
  /\ (let c := Cache_alloc_new_extent type length delayed (w_state w) in
      let s' := w_state (snd (alloc_new_extent type length h w)) in
      placed (st_store (snd c)) (st_store s') (fst c)
      /\ st_trans s' = st_trans (snd c)
      /\ st_rand s' = st_rand (snd c)
      /\ st_env s' = st_env (snd c)).
Proof.
  intros delayed. split; [|split].
  - intros Hl. unfold alloc_new_extent_by_type. rewrite Hl. reflexivity.
  - intros Hl. unfold alloc_new_extent_by_type. rewrite Hl. cbv zeta.
    change (negb true) with false. cbv iota. subst delayed.
    destruct (need_delayed_allocation (get_allocator_type h)); cbv iota;
      unfold bind, call_cache, record_placement, ret; cbv beta;
      destruct (Cache_alloc_new_extent_by_type type length _ (w_state w))
        as [e s1];
      simpl; (split; [|auto]); unfold placed, update_extent;
      rewrite Nat.eqb_refl; simpl; (split; [|auto]);
      intros x Hx; apply Nat.eqb_neq in Hx; now rewrite Hx.
  - unfold alloc_new_extent. cbv zeta. subst delayed.
    destruct (need_delayed_allocation (get_allocator_type h)); cbv iota;
      unfold bind, call_cache, record_placement, ret; cbv beta;
      destruct (Cache_alloc_new_extent type length _ (w_state w)) as [e s1];
      simpl; (split; [|auto]); unfold placed, update_extent;
      rewrite Nat.eqb_refl; simpl; (split; [|auto]);
      intros x Hx; apply Nat.eqb_neq in Hx; now rewrite Hx.
Qed.


(** ** X16

    [alloc_ool_extents_paddr] on an allocator without writers: an empty
    batch succeeds and changes nothing, and for any other batch the choice
    of a writer divides by the size of the empty pool, so that the call
    ends there, before any write is started. *)
Theorem no_writer_means_no_write
    (a : SegmentedAllocator.t) (extents : list LogicalCachedExtentRef)
    (w : world) :
  SegmentedAllocator.writers a = [] ->
  (extents = [] -> alloc_ool_extents_paddr a extents w = (Ok tt, w))
  /\ (extents <> [] ->
      fst (alloc_ool_extents_paddr a extents w) = Aborted
      /\ w_trace (snd (alloc_ool_extents_paddr a extents w)) = w_trace w
      /\ st_store (w_state (snd (alloc_ool_extents_paddr a extents w)))
         = st_store (w_state w)).
Proof.
  intros Hw. split.
  - intros ->. reflexivity.
  - intros Hne. destruct extents as [|x tl]; [contradiction|].
    unfold alloc_ool_extents_paddr, bind. simpl.
    unfold bind, get_store, get_writer, bind, std_rand. simpl.
    rewrite Hw. simpl. auto.
Qed.


End World_facts.

(** ** Sample runs *)

Module sample_runs.

(** C7 as stated fails: with two writers, or two allocators, two calls with
    the same hint select different members. *)
Lemma same_hint_selects_different_members :
  let w := sample_world 0 in
  fst (get_writer glibc_rand two_writers HINT_NONE w) = Ok 1%N
  /\ fst (get_writer glibc_rand two_writers HINT_NONE
            (snd (get_writer glibc_rand two_writers HINT_NONE w))) = Ok 0%N
  /\ fst (get_allocator glibc_rand sample_pm SEGMENTED HINT_NONE w) = Ok 200%N
  /\ fst (get_allocator glibc_rand sample_pm SEGMENTED HINT_NONE
            (snd (get_allocator glibc_rand sample_pm SEGMENTED HINT_NONE w)))
     = Ok 100%N.
Proof. repeat split. Qed.

(** C8 as stated fails: the second writer is handed its group after the
    write of the first has resolved, and not at all when that write failed;
    the allocators of the placement manager likewise. *)
Lemma groups_wait_for_each_other :
  let w := sample_world 0 in
  let w5 := sample_world 5 in
  w_trace (snd (alloc_ool_extents_paddr glibc_rand alloc_succeeds two_writers
                  [0; 1; 2]%nat w))
  = [EvWriteStart 0%N [1%nat]; EvWriteDone 0%N (Ok tt);
     EvWriteStart 1%N [0; 2]%nat; EvWriteDone 1%N (Ok tt)]
  /\ dispatched_concurrently
       (w_trace (snd (alloc_ool_extents_paddr glibc_rand alloc_succeeds
                        two_writers [0; 1; 2]%nat w))) = false
  /\ w_trace (snd (alloc_ool_extents_paddr glibc_rand alloc_first_fails
                     two_writers [0; 1; 2]%nat w))
     = [EvWriteStart 0%N [1%nat]; EvWriteDone 0%N (Err enospc)]
  /\ filter (fun ev => is_start ev || is_done ev)
       (w_trace (snd (delayed_alloc_or_ool_write glibc_rand sample_inline_paddr
                        alloc_succeeds update_succeeds sample_pm w5)))
     = [EvAllocStart 100%N [0%nat]; EvAllocDone 100%N (Ok tt);
        EvAllocStart 200%N [3%nat]; EvAllocDone 200%N (Ok tt)]
  /\ dispatched_concurrently
       (w_trace (snd (delayed_alloc_or_ool_write glibc_rand sample_inline_paddr
                        alloc_succeeds update_succeeds sample_pm w5))) = false
  /\ filter (fun ev => is_start ev || is_done ev)
       (w_trace (snd (delayed_alloc_or_ool_write glibc_rand sample_inline_paddr
                        alloc_first_fails update_succeeds sample_pm w5)))
     = [EvAllocStart 100%N [0%nat]; EvAllocDone 100%N (Err enospc)].
Proof. repeat split. Qed.

Lemma invalid_extents_are_dropped_witness :
  let w := sample_world 5 in
  (forall e, In e [0; 1; 2; 3]%nat -> ext_valid (sample_store e) = true ->
             allocators sample_pm (backend_type (sample_store e)) <> [])
  /\ exists am il w1,
       classify glibc_rand sample_inline_paddr sample_pm [0; 1; 2; 3]%nat [] [] w
       = (Ok (am, il), w1)
       /\ num_delayed_invalid_extents (st_trans (w_state w1)) = 1%N
       /\ Permutation (map snd il ++ map_values am) [0; 2; 3]%nat.
Proof.
  assert (H : forall e, In e [0; 1; 2; 3]%nat ->
                        ext_valid (sample_store e) = true ->
                        allocators sample_pm (backend_type (sample_store e)) <> [])
    by (intros e _ _; discriminate).
  split; [exact H|].
  destruct (invalid_extents_are_dropped unit glibc_rand sample_inline_paddr
              alloc_succeeds update_succeeds sample_pm (sample_world 5) H)
    as (am & il & w1 & Hc & Hn & _ & Hp).
  exists am, il, w1. split; [exact Hc|]. split; [exact Hn | exact Hp].
Defined.

Lemma inline_updates_follow_ool_groups_witness :
  let w := sample_world 5 in
  let run := delayed_alloc_or_ool_write glibc_rand sample_inline_paddr
               alloc_succeeds update_succeeds sample_pm w in
  fst (classify glibc_rand sample_inline_paddr sample_pm [0; 1; 2; 3]%nat [] [] w)
  = Ok ([(100%N, [0%nat]); (200%N, [3%nat])], [(mk_paddr 1000%N 8192, 2%nat)])
  /\ exists marks tr_ool tr_upd,
       w_trace (snd run) = marks ++ tr_ool ++ tr_upd
       /\ forallb is_mark marks = true
       /\ existsb is_update (marks ++ tr_ool) = false
       /\ (forall old e, In (old, e) [(mk_paddr 1000%N 8192, 2%nat)] ->
                         old = ext_paddr (sample_store e)).
Proof.
  split; [reflexivity|].
  destruct (inline_updates_follow_ool_groups unit glibc_rand sample_inline_paddr
              alloc_succeeds update_succeeds sample_pm (sample_world 5)
              ([(100%N, [0%nat]); (200%N, [3%nat])],
               [(mk_paddr 1000%N 8192, 2%nat)])
              (snd (classify glibc_rand sample_inline_paddr sample_pm
                      [0; 1; 2; 3]%nat [] [] (sample_world 5)))
              eq_refl)
    as (marks & tr_ool & tr_upd & Ht & Hm & _ & Hu & _ & _ & _ & Hold).
  exists marks, tr_ool, tr_upd. split; [exact Ht|]. split; [exact Hm|].
  split; [exact Hu|]. apply Hold. repeat constructor; simpl; intuition lia.
Defined.

(** An extent of type 7 and 4096 bytes, allocated with a hint: the cache is
    asked for a temporary address, and the extent carries the segmented
    family and the hint. *)
Lemma new_extent_sample :
  let run := alloc_new_extent_by_type segmented_is_delayed (fun _ => true)
               sample_cache 7%N 4096 5%N (sample_world 0) in
  fst run = Ok 9%nat
  /\ w_trace (snd run) = [EvCacheAllocByType 7%N 4096 true]
  /\ backend_type (st_store (w_state (snd run)) 9%nat) = SEGMENTED
  /\ hint (st_store (w_state (snd run)) 9%nat) = 5%N.
Proof. repeat split. Qed.

End sample_runs.

(** ** Runs of the further properties *)

Module further_runs.
Import ool_record.

(** Two extents of 4096 bytes in a builder of block size 4096. *)
Lemma clear_gives_back_the_new_builder_witness :
  let st := batch store_small 4096%N [0; 1]%nat 0 in
  built store_small st /\ clear st = Some (ool_record_new 4096%N).
Proof.
  intros st.
  assert (H : built store_small st)
    by (unfold st, batch; simpl; repeat constructor).
  split; [exact H|].
  exact (ool_record_facts.clear_gives_back_the_new_builder store_small st H).
Defined.

Lemma encode_keeps_the_batch_witness :
  let st := batch store_small 4096%N [0; 1]%nat 0 in
  built store_small st
  /\ exists st',
       encode store_small 32%N 64%N encode_nothing moved_from_is_empty st 5%N 9%N
       = Some ([], st')
       /\ map lextent (extents st') = [0; 1]%nat
       /\ get_num_extents st' = 2.
Proof.
  intros st.
  assert (H : built store_small st)
    by (unfold st, batch; simpl; repeat constructor).
  split; [exact H|].
  destruct (ool_record_facts.encode_keeps_the_batch store_small 32%N 64%N
              encode_nothing moved_from_is_empty st 5%N 9%N H)
    as (st' & He & Hl & Hn & _).
  exists st'. split; [exact He|]. split; [exact Hl | exact Hn].
Defined.

(** The record of two extents of 4096 bytes begins at 8192: one block of
    header, the first payload at 12288, and the record ends at 20480. *)
Lemma encode_lays_payloads_back_to_back_witness :
  let st := batch store_small 4096%N [0; 1]%nat 8192 in
  built store_small st
  /\ base st + encoded_length 32%N 64%N st = 20480
  /\ exists bl st',
       encode store_small 32%N 64%N encode_nothing moved_from_is_empty st 5%N 9%N
       = Some (bl, st')
       /\ (forall e, nth_error (extents st') 0 = Some e ->
                     get_ool_paddr e = Some (mk_paddr 5%N 12288)).
Proof.
  intros st.
  assert (H : built store_small st)
    by (unfold st, batch; simpl; repeat constructor).
  split; [exact H|]. split; [reflexivity|].
  destruct (ool_record_facts.encode_lays_payloads_back_to_back store_small
              32%N 64%N encode_nothing moved_from_is_empty st 5%N 9%N H)
    as (bl & st' & He & Hfirst & _).
  - vm_compute. discriminate.
  - vm_compute. discriminate.
  - exists bl, st'. split; [exact He | exact Hfirst].
Defined.

Lemma bookkeeping_follows_the_record_witness :
  let st := batch store_small 4096%N [0; 1]%nat 0 in
  built store_small st
  /\ get_num_extents st = Z.of_nat (length (rec_extents (record st)))
  /\ rec_deltas (record st) = [].
Proof.
  intros st.
  assert (H : built store_small st)
    by (unfold st, batch; simpl; repeat constructor).
  split; [exact H|].
  destruct (ool_record_facts.bookkeeping_follows_the_record store_small
              32%N 64%N st H) as (Hn & Hd & _).
  split; [exact Hn | exact Hd].
Defined.

Lemma encode_again_needs_clear_witness :
  let st := batch store_small 4096%N [0; 1]%nat 0 in
  exists bl st',
    encode store_small 32%N 64%N encode_nothing moved_from_is_empty st 5%N 9%N
    = Some (bl, st')
    /\ encode store_small 32%N 64%N encode_nothing moved_from_is_empty st' 5%N 9%N
       = None
    /\ clear st' = Some (ool_record_new 4096%N).
Proof.
  intros st.
  destruct (encode store_small 32%N 64%N encode_nothing moved_from_is_empty
              st 5%N 9%N) as [[bl st']|] eqn:E;
    [|vm_compute in E; discriminate].
  exists bl, st'. split; [reflexivity|].
  destruct (ool_record_facts.encode_again_needs_clear store_small 32%N 64%N
              encode_nothing moved_from_is_empty st st' 5%N 9%N bl E)
    as (Hagain & Hclear).
  - discriminate.
  - reflexivity.
  - split; [exact Hagain | exact (Hclear eq_refl)].
Defined.

(** The device refuses to close segment 3, the first of the two open
    segments: segment 4 stays open, and the gate is closed. *)
Lemma failed_stop_leaves_the_rest_open_witness :
  let run := SegmentedAllocator.Writer_stop close_fails_on_3 writer_two_segments in
  fst run = Err input_output_error
  /\ exists pre h post,
       SegmentedAllocator.open_segments writer_two_segments = pre ++ h :: post
       /\ Forall (SegmentedAllocator.accepted close_fails_on_3) pre
       /\ close_fails_on_3 (seg_id (wr_segment h)) = Some input_output_error
       /\ SegmentedAllocator.open_segments (snd run) = map closed pre ++ h :: post
       /\ g_stopped (SegmentedAllocator.writer_guard (snd run)) = true.
Proof.
  intros run. split; [reflexivity|].
  exact (SegmentedAllocator_facts.failed_stop_leaves_the_rest_open
           close_fails_on_3 writer_two_segments (snd run) input_output_error
           eq_refl).
Defined.

Lemma extents_go_to_allocators_of_their_family_witness :
  let w := sample_world 5 in
  fst (classify glibc_rand sample_inline_paddr sample_pm [0; 1; 2; 3]%nat [] [] w)
  = Ok ([(100%N, [0%nat]); (200%N, [3%nat])], [(mk_paddr 1000%N 8192, 2%nat)])
  /\ In 200%N (allocators sample_pm (backend_type (sample_store 3%nat)))
  /\ In 3%nat [0; 1; 2; 3]%nat.
Proof.
  intros w. split; [reflexivity|].
  apply (extents_go_to_allocators_of_their_family unit glibc_rand
           sample_inline_paddr sample_pm w
           [(100%N, [0%nat]); (200%N, [3%nat])]
           [(mk_paddr 1000%N 8192, 2%nat)]
           (snd (classify glibc_rand sample_inline_paddr sample_pm
                   [0; 1; 2; 3]%nat [] [] w))
           eq_refl 200%N [3%nat] 3%nat).
  - right. left. reflexivity.
  - left. reflexivity.
Defined.

Lemma groups_keep_the_order_of_the_list_witness :
  let w := sample_world 5 in
  fst (classify glibc_rand sample_inline_paddr sample_pm [0; 1; 2; 3]%nat [] [] w)
  = Ok ([(100%N, [0%nat]); (200%N, [3%nat])], [(mk_paddr 1000%N 8192, 2%nat)])
  /\ subseq [3%nat] [0; 1; 2; 3]%nat
  /\ subseq [2%nat] [0; 1; 2; 3]%nat.
Proof.
  intros w. split; [reflexivity|].
  destruct (groups_keep_the_order_of_the_list unit glibc_rand
              sample_inline_paddr sample_pm w
              [(100%N, [0%nat]); (200%N, [3%nat])]
              [(mk_paddr 1000%N 8192, 2%nat)]
              (snd (classify glibc_rand sample_inline_paddr sample_pm
                      [0; 1; 2; 3]%nat [] [] w))
              eq_refl) as (Hg & Hi).
  split; [|exact Hi].
  apply (Hg 200%N). right. left. reflexivity.
Defined.

Lemma writer_groups_follow_the_batch_witness :
  let w := sample_world 0 in
  let run := group_by_writer glibc_rand two_writers [0; 1; 2]%nat [] w in
  fst run = Ok [(0%N, [1%nat]); (1%N, [0; 2]%nat)]
  /\ NoDup [0%N; 1%N]
  /\ subseq [0; 2]%nat [0; 1; 2]%nat
  /\ st_rand (w_state (snd run)) = 3%nat.
Proof.
  intros w run. split; [reflexivity|].
  destruct (writer_groups_follow_the_batch unit glibc_rand two_writers
              [0; 1; 2]%nat w [(0%N, [1%nat]); (1%N, [0; 2]%nat)] (snd run)
              eq_refl) as (Hnd & Hg & Hr & _).
  split; [exact Hnd|]. split; [|exact Hr].
  apply (Hg 1%N). right. left. reflexivity.
Defined.

(** Two stale entries and no allocator at all: the pass succeeds and has
    counted two invalid extents. *)
Lemma invalid_extents_need_no_allocator_witness :
  (forall e, In e [1; 1]%nat -> ext_valid (sample_store e) = false)
  /\ exists w',
       delayed_alloc_or_ool_write glibc_rand sample_inline_paddr alloc_succeeds
         update_succeeds no_allocators stale_world = (Ok tt, w')
       /\ w_trace w' = []
       /\ num_delayed_invalid_extents (st_trans (w_state w')) = 2%N.
Proof.
  assert (H : forall e, In e [1; 1]%nat -> ext_valid (sample_store e) = false)
    by (intros e [<-|[<-|[]]]; reflexivity).
  split; [exact H|].
  destruct (invalid_extents_need_no_allocator unit glibc_rand
              sample_inline_paddr alloc_succeeds update_succeeds no_allocators
              stale_world H) as (w' & Hrun & Ht & _ & _ & _ & _ & _ & Hn).
  exists w'. split; [exact Hrun|]. split; [exact Ht | exact Hn].
Defined.

Lemma successful_resolution_covers_the_valid_extents_witness :
  let run := delayed_alloc_or_ool_write glibc_rand sample_inline_paddr
               alloc_succeeds update_succeeds sample_pm (sample_world 5) in
  fst run = Ok tt
  /\ exists tr,
       w_trace (snd run) = tr
       /\ Permutation (map snd (marks_of tr) ++ map_values (started tr))
                      [0; 2; 3]%nat
       /\ length (filter is_update tr) = 1%nat.
Proof.
  intros run. split; [reflexivity|].
  destruct (successful_resolution_covers_the_valid_extents unit glibc_rand
              sample_inline_paddr alloc_succeeds update_succeeds sample_pm
              (sample_world 5) eq_refl) as (tr & Ht & Hp & _ & Hu & _).
  exists tr. split; [exact Ht|]. split; [exact Hp|].
  rewrite Hu. change (w_trace (snd run) = [] ++ tr) in Ht.
  simpl in Ht. rewrite <- Ht. reflexivity.
Defined.

Lemma no_writer_means_no_write_witness :
  let w := sample_world 0 in
  SegmentedAllocator.writers no_writers = []
  /\ alloc_ool_extents_paddr glibc_rand alloc_succeeds no_writers [] w = (Ok tt, w)
  /\ fst (alloc_ool_extents_paddr glibc_rand alloc_succeeds no_writers
            [0; 1]%nat w) = Aborted.
Proof.
  intros w. split; [reflexivity|]. split.
  - apply (no_writer_means_no_write unit glibc_rand alloc_succeeds no_writers
             [] w eq_refl). reflexivity.
  - apply (no_writer_means_no_write unit glibc_rand alloc_succeeds no_writers
             [0; 1]%nat w eq_refl). discriminate.
Defined.

End further_runs.
